(** * calcine: the SRT subtitle translator [sub_translator.py]

    A shallow embedding of [SubtitleTranslator] and the properties of its
    parser, serializer, translation client and batch orchestrator.

    Python [str] values are modelled as lists of characters, with the
    characters restricted to the code points below 256 ([ascii]).  On that
    range [\d] matches exactly [0]..[9] and [str.strip] removes exactly the
    characters recognised by [isspace] below. *)

From Stdlib Require Import Ascii String.
From stdpp Require Import gmap strings list.

Open Scope list_scope.

(** ** Characters and strings *)

Definition str := list ascii.

Definition nl : ascii := "010"%char.

(** A string literal as a [str]. *)
Definition lit (s : string) : str := list_ascii_of_string s.

(** The empty line. *)
Definition blank : string := EmptyString.

(** [unlines [l1; ..; ln]] is [l1 \n .. ln \n]. *)
Fixpoint unlines (ls : list string) : str :=
  match ls with
  | [] => []
  | l :: ls' => lit l ++ nl :: unlines ls'
  end.

(** [\d] on code points below 256. *)
Definition is_digit (c : ascii) : bool :=
  let n := nat_of_ascii c in (48 <=? n) && (n <=? 57).

(** [.] without [re.DOTALL]: anything but a newline. *)
Definition is_dot (c : ascii) : bool := negb (Ascii.eqb c nl).

(** [str.isspace] on code points below 256: TAB, LF, VT, FF, CR, the
    separators FS, GS, RS, US, the space, NEL and the no-break space. *)
Definition isspace (c : ascii) : bool :=
  let n := nat_of_ascii c in
  ((9 <=? n) && (n <=? 13)) || ((28 <=? n) && (n <=? 32))
  || (n =? 133) || (n =? 160).

(** [str.lstrip()], [str.rstrip()] and [str.strip()] with no argument. *)
Fixpoint lstrip (s : str) : str :=
  match s with
  | [] => []
  | c :: s' => if isspace c then lstrip s' else s
  end.

Fixpoint rstrip (s : str) : str :=
  match s with
  | [] => []
  | c :: s' =>
      match rstrip s' with
      | [] => if isspace c then [] else [c]
      | r => c :: r
      end
  end.

Definition strip (s : str) : str := rstrip (lstrip s).

(** ** The [re] engine: a backtracking matcher

    Only the constructs the pattern of [parse_srt] uses.  A match is
    searched the way [re] does it: alternatives left to right, a greedy
    repetition trying one more iteration before the rest of the pattern, a
    lazy one trying the rest of the pattern first.  The continuation [k]
    is the rest of the pattern; it receives the remaining input and the
    groups captured so far. *)

Inductive regex : Type :=
| Lit (c : ascii)
| Class (p : ascii -> bool)
| Eol
| Seq (r1 r2 : regex)
| Alt (r1 r2 : regex)
| Star (greedy : bool) (r : regex)
| Group (n : nat) (r : regex).

Abbreviation caps := (gmap nat str).

Definition kont := str -> caps -> option (str * caps).

(** The loop of a repetition [r*] (greedy) or [r*?] (lazy), [body] being
    the matcher of [r].  An iteration has to consume input; [fuel] is the
    number of characters left when the loop is entered, so it never runs
    out before the input does. *)
Fixpoint star_loop (body : str -> caps -> kont -> option (str * caps))
    (greedy : bool) (k : kont) (fuel : nat) (s : str) (g : caps)
  : option (str * caps) :=
  let again :=
    match fuel with
    | 0 => None
    | S fuel' =>
        body s g
          (fun s' g' =>
             if length s' <? length s
             then star_loop body greedy k fuel' s' g'
             else None)
    end in
  if greedy
  then match again with Some m => Some m | None => k s g end
  else match k s g with Some m => Some m | None => again end.

Fixpoint exec (r : regex) (s : str) (g : caps) (k : kont) {struct r}
  : option (str * caps) :=
  match r with
  | Lit c =>
      match s with
      | x :: s' => if Ascii.eqb x c then k s' g else None
      | [] => None
      end
  | Class p =>
      match s with
      | x :: s' => if p x then k s' g else None
      | [] => None
      end
  | Eol =>
      (* [$] under [re.MULTILINE]: at the end of the input or before a
         newline; consumes nothing *)
      match s with
      | [] => k s g
      | x :: _ => if Ascii.eqb x nl then k s g else None
      end
  | Seq r1 r2 => exec r1 s g (fun s' g' => exec r2 s' g' k)
  | Alt r1 r2 =>
      match exec r1 s g k with
      | Some m => Some m
      | None => exec r2 s g k
      end
  | Star greedy r1 => star_loop (exec r1) greedy k (length s) s g
  | Group n r1 =>
      exec r1 s g
        (fun s' g' => k s' (<[n := take (length s - length s') s]> g'))
  end.

(** [r+] and a literal string followed by [r]. *)
Definition plus (greedy : bool) (r : regex) : regex := Seq r (Star greedy r).

Fixpoint lits (s : str) (r : regex) : regex :=
  match s with
  | [] => r
  | c :: s' => Seq (Lit c) (lits s' r)
  end.

(** [re.match] at the start of [s]: the rest of the input and the groups. *)
Definition match_at (r : regex) (s : str) : option (str * caps) :=
  exec r s ∅ (fun s' g => Some (s', g)).

(** [re.finditer]: the leftmost match, then the search resumes where the
    match ended.  After an empty match the search moves on by one
    character. *)
Fixpoint finditer_from (fuel : nat) (r : regex) (s : str) : list caps :=
  match fuel with
  | 0 => []
  | S fuel' =>
      let next := match s with [] => [] | _ :: t => finditer_from fuel' r t end in
      match match_at r s with
      | Some (s', g) =>
          g :: (if length s' <? length s then finditer_from fuel' r s' else next)
      | None => next
      end
  end.

Definition finditer (r : regex) (s : str) : list caps :=
  finditer_from (S (length s)) r s.

(** [match.group(n)]. *)
Definition group (g : caps) (n : nat) : str := default [] (g !! n).

(** ** [parse_srt] *)

Record subtitle : Type := Subtitle {
  index : str;
  start_time : str;
  end_time : str;
  text : str
}.

Definition digit : regex := Class is_digit.

(** [\d{2}:\d{2}:\d{2},\d{3}] *)
Definition timestamp : regex :=
  Seq digit (Seq digit (Seq (Lit ":") (Seq digit (Seq digit (Seq (Lit ":")
    (Seq digit (Seq digit (Seq (Lit ",") (Seq digit (Seq digit digit)))))))))).

(** [(\d+)\n(TS) --> (TS)\n((?:.*?\n)*?)(?:\n|$)] *)
Definition subtitle_pattern : regex :=
  Seq (Group 1 (plus true digit))
    (Seq (Lit nl)
      (Seq (Group 2 timestamp)
        (lits (lit " --> ")
          (Seq (Group 3 timestamp)
            (Seq (Lit nl)
              (Seq (Group 4 (Star false (Seq (Star false (Class is_dot)) (Lit nl))))
                (Alt (Lit nl) Eol))))))).

Definition parse_srt (content : str) : list subtitle :=
  map (fun m => {| index := group m 1;
                   start_time := group m 2;
                   end_time := group m 3;
                   text := strip (group m 4) |})
      (finditer subtitle_pattern content).

(** ** [save_progress]: the serializer and the file store

    A file store maps a path to the text of the file.  Writing is modelled
    for a platform whose line separator is [\n]; reading in text mode
    turns [\r\n] and [\r] into [\n] (universal newlines). *)

(** What [save_progress] writes for one record, and for all of them. *)
Definition render (sub : subtitle) : str :=
  index sub ++ [nl]
  ++ start_time sub ++ lit " --> " ++ end_time sub ++ [nl]
  ++ text sub ++ [nl; nl].

Definition serialize (subs : list subtitle) : str :=
  concat (map render subs).

Abbreviation files := (gmap string str).

Definition save_progress (translated_subtitles : list subtitle)
    (output_file : string) (fs : files) : files :=
  <[output_file := serialize translated_subtitles]> fs.

Definition cr : ascii := "013"%char.

Fixpoint universal_newlines (s : str) : str :=
  match s with
  | [] => []
  | c :: s' =>
      if Ascii.eqb c cr
      then nl :: match s' with
                 | c' :: s'' =>
                     if Ascii.eqb c' nl
                     then universal_newlines s''
                     else universal_newlines s'
                 | [] => []
                 end
      else c :: universal_newlines s'
  end.

(** [open(path, 'r').read()], [None] when the file does not exist. *)
Definition read_file (fs : files) (path : string) : option str :=
  universal_newlines <$> fs !! path.

(** [create_backup]; [timestamp] is what the clock gives, formatted. *)
Definition backup_path (file_path timestamp : string) : string :=
  file_path +:+ "." +:+ timestamp +:+ ".backup".

Definition create_backup (timestamp : string) (file_path : string)
    (fs : files) : files :=
  match read_file fs file_path with
  | Some c => <[backup_path file_path timestamp := c]> fs
  | None => fs
  end.

(** ** [translate_text]: the translation client *)

(** The exceptions that leave a function of the translator. *)
Inductive pyexn : Type :=
| KeyboardInterrupt
| IndexError
| AttributeError
| FileNotFoundError.

Inductive result (A : Type) : Type :=
| Return (a : A)
| Raise (e : pyexn).
Arguments Return {A} a.
Arguments Raise {A} e.

(** What the handler sees of the [Exception] a failed attempt raised: the
    exception has no attribute [response], or the attribute is [None], or
    it is a response object with a [content]. *)
Inductive response_attr : Type :=
| NoAttr
| IsNone
| Response (content : str).

(** One attempt: the request is answered and
    [response.json()['content'][0]['text']] is [t], or one of
    [requests.post], [raise_for_status], [json] and the lookups raises an
    [Exception]. *)
Inductive attempt : Type :=
| Replied (t : str)
| Failed (e : response_attr).

(** The remote service: the outcome of the [n]-th request, given the
    prompt it carries. *)
Definition service := nat -> str -> attempt.

Record translator : Type := Translator {
  max_retries : nat;
  post : service
}.

Definition default_max_retries : nat := 3.

Definition prompt (target_language text : str) : str :=
  lit "Translate only the following text to " ++ target_language
  ++ lit ". Use lowercase unless grammatically required. Do not add any commentary or additional text:"
  ++ [nl; nl] ++ text.

(** The diagnostics of the [except] clause:
    [if hasattr(e, 'response'): print(... e.response.content ...)]. *)
Definition report (e : response_attr) : result unit :=
  match e with
  | NoAttr => Return tt
  | IsNone => Raise AttributeError
  | Response _ => Return tt
  end.

(** The loop [for attempt in range(self.max_retries)], over the attempt
    numbers still to run; [calls] counts the requests sent so far.  A
    failed attempt that is not the last one reports and goes on to the
    next after the delay; the last one reports and returns the text.  The
    result is [Return None] when the loop ends without a [return]. *)
Fixpoint attempts (self : translator) (todo : list nat) (calls : nat)
    (request text : str) : result (option str) * nat :=
  match todo with
  | [] => (Return None, calls)
  | attempt :: todo' =>
      match post self calls request with
      | Replied t => (Return (Some t), S calls)
      | Failed e =>
          if attempt <? max_retries self - 1
          then
            match report e with
            | Raise x => (Raise x, S calls)
            | Return _ => attempts self todo' (S calls) request text
            end
          else
            match report e with
            | Raise x => (Raise x, S calls)
            | Return _ => (Return (Some text), S calls)
            end
      end
  end.

Definition translate_text (self : translator) (calls : nat)
    (text target_language : str) : result (option str) * nat :=
  attempts self (seq 0 (max_retries self)) calls
    (prompt target_language text) text.

(** ** [str.join] and [str.split] *)

Definition delimiter : str := nl :: lit "---" ++ [nl].

Fixpoint join (sep : str) (l : list str) : str :=
  match l with
  | [] => []
  | [x] => x
  | x :: l' => x ++ sep ++ join sep l'
  end.

Fixpoint starts_with (p s : str) : bool :=
  match p, s with
  | [], _ => true
  | a :: p', b :: s' => Ascii.eqb b a && starts_with p' s'
  | _ :: _, [] => false
  end.

(** [s.split(sep)] for a non-empty [sep]: the occurrences of [sep] are
    found left to right without overlap; [skip] counts the characters of
    an occurrence still to pass over. *)
Fixpoint split_from (sep : str) (skip : nat) (s : str) : list str :=
  match s with
  | [] => [[]]
  | c :: s' =>
      match skip with
      | S n => split_from sep n s'
      | 0 =>
          if starts_with sep s
          then [] :: split_from sep (length sep - 1) s'
          else match split_from sep 0 s' with
               | p :: ps => (c :: p) :: ps
               | [] => [[c]]
               end
      end
  end.

Definition split (sep s : str) : list str := split_from sep 0 s.

(** ** [translate_subtitles]: the batch orchestrator *)

Definition batch_size : nat := 5.

(** Where in the processing of a batch an interruption signal is
    delivered: during the delay before the request, during the call of
    [translate_text], or in the loop over the parts once [j] records of
    the batch have been appended ([j] the number of parts: after the
    loop). *)
Inductive phase : Type :=
| InDelay
| InCall
| Appended (j : nat).

Global Instance phase_eq_dec : EqDecision phase.
Proof. solve_decision. Defined.

(** The signal of a run: none, or one at a batch (counted from 1). *)
Definition signal := option (nat * phase).

(** Whether the signal is delivered at this point of the run. *)
Definition fires (sig : signal) (batch_no : nat) (ph : phase) : bool :=
  bool_decide (sig = Some (batch_no, ph)).

(** [subtitle = batch[j].copy(); subtitle['text'] = t]. *)
Definition with_text (sub : subtitle) (t : str) : subtitle :=
  {| index := index sub; start_time := start_time sub;
     end_time := end_time sub; text := t |}.

(** [for j, part in enumerate(translated_parts)]: the copy of [batch[j]]
    gets the stripped part as its text and is appended. *)
Fixpoint append_parts (sig : signal) (batch_no : nat) (batch : list subtitle)
    (parts : list str) (j : nat) (translated_subtitles : list subtitle)
  : option pyexn * list subtitle :=
  if fires sig batch_no (Appended j)
  then (Some KeyboardInterrupt, translated_subtitles)
  else
    match parts with
    | [] => (None, translated_subtitles)
    | part :: parts' =>
        match batch !! j with
        | None => (Some IndexError, translated_subtitles)
        | Some sub =>
            append_parts sig batch_no batch parts' (S j)
              (translated_subtitles ++ [with_text sub (strip part)])
        end
    end.

(** The state of the loop over the batches. *)
Record state : Type := State {
  translated : list subtitle;
  disk : files;
  calls : nat
}.

(** [sequence[i:j]] for [0 <= i <= j]. *)
Definition slice {A} (l : list A) (i j : nat) : list A :=
  take (j - i) (drop i l).

(** The body of the loop for the batch that starts at subtitle [i]. *)
Definition batch_step (self : translator) (sig : signal)
    (target_language : str) (progress_file : string)
    (subtitles : list subtitle) (i : nat) (st : state)
  : option pyexn * state :=
  let batch := slice subtitles i (i + batch_size) in
  let current_batch := i / batch_size + 1 in
  if fires sig current_batch InDelay then (Some KeyboardInterrupt, st)
  else
    let combined_text := join delimiter (map text batch) in
    if fires sig current_batch InCall then (Some KeyboardInterrupt, st)
    else
      match translate_text self (calls st) combined_text target_language with
      | (Raise e, n) => (Some e, State (translated st) (disk st) n)
      | (Return None, n) =>
          (Some AttributeError, State (translated st) (disk st) n)
      | (Return (Some translated_text), n) =>
          let translated_parts := split delimiter translated_text in
          match append_parts sig current_batch batch translated_parts 0
                  (translated st) with
          | (Some e, acc) => (Some e, State acc (disk st) n)
          | (None, acc) =>
              (None, State acc (save_progress acc progress_file (disk st)) n)
          end
      end.

(** [range(0, total, batch_size)]. *)
Definition batch_starts (total : nat) : list nat :=
  map (fun q => q * batch_size) (seq 0 ((total + batch_size - 1) / batch_size)).

Fixpoint run_batches (self : translator) (sig : signal)
    (target_language : str) (progress_file : string)
    (subtitles : list subtitle) (starts : list nat) (st : state)
  : option pyexn * state :=
  match starts with
  | [] => (None, st)
  | i :: starts' =>
      match batch_step self sig target_language progress_file subtitles i st with
      | (Some e, st') => (Some e, st')
      | (None, st') =>
          run_batches self sig target_language progress_file subtitles starts' st'
      end
  end.

(** How a run ends: [Completed] and [Interrupted] return normally,
    [Aborted e] lets [e] out. *)
Inductive outcome : Type :=
| Completed
| Interrupted
| Aborted (e : pyexn).

(** [f"{output_file}.progress"]. *)
Definition progress_path (output_file : string) : string :=
  output_file +:+ ".progress".

(** [if os.path.exists(output_file): self.create_backup(output_file)]. *)
Definition backup_existing (now : string) (output_file : string)
    (fs : files) : files :=
  match fs !! output_file with
  | Some _ => create_backup now output_file fs
  | None => fs
  end.

(** A run: the store [fs], the clock reading [now] used for the name of
    the backup, and the signal [sig] are what the environment provides;
    the result is how the run ends and the store it leaves. *)
Definition translate_subtitles (self : translator) (sig : signal)
    (now : string) (fs : files) (input_file output_file : string)
    (target_language : str) : outcome * files :=
  let fs1 := backup_existing now output_file fs in
  match read_file fs1 input_file with
  | None => (Aborted FileNotFoundError, fs1)
  | Some content =>
      let subtitles := parse_srt content in
      let total_subtitles := length subtitles in
      let progress_file := progress_path output_file in
      match run_batches self sig target_language progress_file subtitles
              (batch_starts total_subtitles) (State [] fs1 0) with
      | (Some KeyboardInterrupt, st) =>
          (Interrupted, save_progress (translated st) progress_file (disk st))
      | (Some e, st) =>
          (Aborted e, save_progress (translated st) progress_file (disk st))
      | (None, st) =>
          let fs2 := save_progress (translated st) output_file (disk st) in
          (Completed,
           match fs2 !! progress_file with
           | Some _ => delete progress_file fs2
           | None => fs2
           end)
      end
  end.

(** ** The pattern of [parse_srt] read directly

    What a match of [subtitle_pattern] at the start of the input comes
    to, without backtracking; [match_at_subtitle_pattern] below proves it
    equal to the matcher. *)

(** The longest run of characters of a class, and what follows. *)
Fixpoint span (p : ascii -> bool) (s : str) : str * str :=
  match s with
  | [] => ([], [])
  | c :: s' =>
      if p c then let (a, b) := span p s' in (c :: a, b) else ([], s)
  end.

(** A time stamp [HH:MM:SS,mmm]: what [\d{2}:\d{2}:\d{2},\d{3}] matches. *)
Definition is_timestamp (t : str) : bool :=
  match t with
  | [h1; h2; c1; m1; m2; c2; s1; s2; c3; f1; f2; f3] =>
      is_digit h1 && is_digit h2 && Ascii.eqb c1 ":"
      && is_digit m1 && is_digit m2 && Ascii.eqb c2 ":"
      && is_digit s1 && is_digit s2 && Ascii.eqb c3 ","
      && is_digit f1 && is_digit f2 && is_digit f3
  | _ => false
  end.

(** The lines of the text up to the first empty line, which is consumed,
    or up to the end of the input; [bol] tells whether a line starts
    here.  There is no match when the input ends inside a line. *)
Fixpoint read_body (bol : bool) (s : str) : option (str * str) :=
  match s with
  | [] => if bol then Some ([], []) else None
  | c :: s' =>
      if Ascii.eqb c nl
      then if bol then Some ([], s')
           else prod_map (cons c) id <$> read_body true s'
      else prod_map (cons c) id <$> read_body false s'
  end.

(** The four groups of a match. *)
Record block : Type := Block {
  b_index : str;
  b_start : str;
  b_end : str;
  b_body : str
}.

(** A match at the start of [s]: the longest run of digits, a newline,
    the two time stamps around the arrow, a newline, then the text; the
    result is the groups and the input left after the match. *)
Definition read_block (s : str) : option (block * str) :=
  match span is_digit s with
  | (d :: ds, c :: s1) =>
      if Ascii.eqb c nl && is_timestamp (take 12 s1)
         && starts_with (lit " --> ") (drop 12 s1)
         && is_timestamp (take 12 (drop 17 s1))
         && starts_with [nl] (drop 29 s1)
      then
        (fun '(body, rest) =>
           (Block (d :: ds) (take 12 s1) (take 12 (drop 17 s1)) body, rest))
        <$> read_body true (drop 30 s1)
      else None
  | _ => None
  end.

(** The groups as [match.group] gives them, and the record they make. *)
Definition block_groups (b : block) : caps :=
  <[4 := b_body b]> (<[3 := b_end b]> (<[2 := b_start b]>
    (<[1 := b_index b]> ∅))).

Definition block_subtitle (b : block) : subtitle :=
  {| index := b_index b; start_time := b_start b; end_time := b_end b;
     text := strip (b_body b) |}.

(** The search of [finditer] over [read_block]. *)
Fixpoint scan (fuel : nat) (s : str) : list block :=
  match fuel with
  | 0 => []
  | S fuel' =>
      match read_block s with
      | Some (b, rest) => b :: scan fuel' rest
      | None => match s with [] => [] | _ :: t => scan fuel' t end
      end
  end.

(** ** Auxiliary definitions of the proofs and the examples *)

(** [.*?\n], one line of the text. *)
Definition line : regex := Seq (Star false (Class is_dot)) (Lit nl).

(** The end of the pattern, [(?:\n|$)], reached from the text that
    started at [s0]. *)
Definition body_exit (s0 : str) : kont :=
  fun s' g' =>
    exec (Alt (Lit nl) Eol) s'
      (<[4 := take (length s0 - length s') s0]> g')
      (fun s'' g'' => Some (s'', g'')).

(** The blocks of an input, with the fuel [finditer] uses. *)
Definition parse_blocks (s : str) : list block := scan (S (length s)) s.

(** No line of [s] is empty, [bol] telling whether [s] starts a line. *)
Fixpoint no_empty_line (bol : bool) (s : str) : bool :=
  match s with
  | [] => true
  | c :: s' =>
      if Ascii.eqb c nl then negb bol && no_empty_line true s'
      else no_empty_line false s'
  end.

(** Whether a line starts after [s]. *)
Fixpoint bol_after (bol : bool) (s : str) : bool :=
  match s with
  | [] => bol
  | c :: s' => bol_after (Ascii.eqb c nl) s'
  end.

(** The source text of a block header. *)
Definition header (idx st en : str) : str :=
  idx ++ nl :: st ++ lit " --> " ++ en ++ [nl].

(** The records the parser can return: an index of digits, two time
    stamps, and a text that is stripped and has no empty line. *)
Definition canonical (r : subtitle) : Prop :=
  index r <> [] /\ forallb is_digit (index r) = true
  /\ is_timestamp (start_time r) = true /\ is_timestamp (end_time r) = true
  /\ lstrip (text r) = text r /\ rstrip (text r) = text r
  /\ no_empty_line true (text r) = true.

(** A subtitle block as it stands in a file: the index, the two time
    stamps and the text lines (each without its newline). *)
Record src_block : Type := SrcBlock {
  s_index : str;
  s_start : str;
  s_end : str;
  s_lines : list str
}.

Definition nonempty {A} (l : list A) : bool :=
  match l with [] => false | _ :: _ => true end.

(** A text line: not empty, and no newline inside. *)
Definition text_line (l : str) : bool := nonempty l && forallb is_dot l.

(** A well-formed block: an index of one or more digits, two time stamps,
    one or more text lines. *)
Definition well_formed (b : src_block) : bool :=
  nonempty (s_index b) && forallb is_digit (s_index b)
  && is_timestamp (s_start b) && is_timestamp (s_end b)
  && nonempty (s_lines b) && forallb text_line (s_lines b).

(** The text lines as they stand in the file, each with its newline. *)
Definition raw_text (b : src_block) : str :=
  concat (map (fun l => l ++ [nl]) (s_lines b)).

(** The block as it stands in the file, up to its last text line. *)
Definition block_source (b : src_block) : str :=
  header (s_index b) (s_start b) (s_end b) ++ raw_text b.

(** A file of blocks, an empty line after each; the last one ends with an
    empty line or, [final_blank] being [false], with the input. *)
Fixpoint srt_source (bs : list src_block) (final_blank : bool) : str :=
  match bs with
  | [] => []
  | [b] => block_source b ++ (if final_blank then [nl] else [])
  | b :: bs' => block_source b ++ nl :: srt_source bs' final_blank
  end.

(** The record expected for a block. *)
Definition parsed (b : src_block) : subtitle :=
  {| index := s_index b; start_time := s_start b; end_time := s_end b;
     text := strip (raw_text b) |}.

(** No carriage return in [s]: what reading a file always gives. *)
Definition no_cr (s : str) : bool := forallb (fun c => negb (Ascii.eqb c cr)) s.

(** No carriage return in the fields of a record. *)
Definition record_no_cr (r : subtitle) : bool :=
  no_cr (index r) && no_cr (start_time r) && no_cr (end_time r)
  && no_cr (text r).

(** The records a batch gives for the parts of its translation, paired by
    position. *)
Definition paired (batch : list subtitle) (parts : list str) : list subtitle :=
  zip_with with_text batch (map strip parts).

Definition ts1 : str := lit "00:00:01,000".
Definition ts2 : str := lit "00:00:02,000".
Definition ts3 : str := lit "00:00:03,000".
Definition ts4 : str := lit "00:00:04,000".

(** Two blocks, the second with two text lines. *)
Definition two_blocks : list src_block :=
  [SrcBlock (lit "1") ts1 ts2 [lit "Hello"];
   SrcBlock (lit "2") ts3 ts4 [lit "World"; lit "again"]].

(** A block whose text line starts with two spaces. *)
Definition indented_block : src_block :=
  SrcBlock (lit "1") ts1 ts2 [lit "  Hello"].

(** A block header followed by [a], an empty line, [b], an empty line. *)
Definition split_text_source : str :=
  unlines ["1"; "00:00:01,000 --> 00:00:02,000"; "a"; blank; "b"; blank].

Definition french : str := lit "French".

(** The records of a two-block file with the texts [Hello] and [World]. *)
Definition hello_world : list subtitle :=
  [Subtitle (lit "1") ts1 ts2 (lit "Hello");
   Subtitle (lit "2") ts3 ts4 (lit "World")].

(** A service that answers every request with [Bonjour\n---\nMonde]. *)
Definition two_parts : translator :=
  Translator default_max_retries
    (fun _ _ => Replied (lit "Bonjour" ++ delimiter ++ lit "Monde")).

(** A service that answers every request with the single part [Bonjour]. *)
Definition one_part : translator :=
  Translator default_max_retries (fun _ _ => Replied (lit "Bonjour")).

(** A service that answers every request with three parts. *)
Definition three_parts : translator :=
  Translator default_max_retries
    (fun _ _ => Replied (lit "un" ++ delimiter ++ lit "deux" ++ delimiter
                          ++ lit "trois")).

Definition in_srt : string := "in.srt".
Definition out_srt : string := "out.srt".
Definition clock : string := "20240101_120000".

(** A store holding the input file with the records [hello_world]. *)
Definition store : files := {[ in_srt := serialize hello_world ]}.

(** A file with one block whose text has the three lines [a], [---], [b]. *)
Definition dashed_source : str :=
  unlines ["1"; "00:00:01,000 --> 00:00:02,000"; "a"; "---"; "b"; blank].

(** A service whose requests all fail with an exception that has no
    attribute [response] (a [KeyError] of the lookups, for one). *)
Definition no_answer : translator :=
  Translator default_max_retries (fun _ _ => Failed NoAttr).

(** A service whose requests all fail with an exception whose attribute
    [response] is [None], as the exceptions of [requests] for a
    connection that cannot be made. *)
Definition network_down : translator :=
  Translator default_max_retries (fun _ _ => Failed IsNone).

(** The records of batch [q + 1] already appended when the signal of
    phase [ph] is delivered, [parts] being the parts of its translation. *)
Definition appended_before (ph : phase) (batch : list subtitle)
    (parts : list str) : list subtitle :=
  match ph with
  | Appended j => take j (paired batch parts)
  | _ => []
  end.

(** The signal of phase [ph] can be delivered in a batch: always during
    the delay and the call; in the loop over the parts after [j] records
    when the translation has arrived and the loop gets that far. *)
Definition deliverable (self : translator) (lang : str) (ph : phase)
    (batch : list subtitle) (calls : nat) : Prop :=
  match ph with
  | Appended j =>
      exists t n,
        translate_text self calls (join delimiter (map text batch)) lang
          = (Return (Some t), n)
        /\ j <= length (split delimiter t) /\ j <= length batch
  | _ => True
  end.

(** The parts of the translation of a batch, none when it does not
    arrive. *)
Definition parts_of (self : translator) (lang : str) (batch : list subtitle)
    (calls : nat) : list str :=
  match translate_text self calls (join delimiter (map text batch)) lang with
  | (Return (Some t), _) => split delimiter t
  | _ => []
  end.

(** An identity service: it answers with the text the prompt carries
    after the instruction for French. *)
Definition echo : translator :=
  Translator default_max_retries
    (fun _ request => Replied (drop (length (prompt french [])) request)).

(** Eleven records, three batches. *)
Definition eleven : list subtitle :=
  map (fun i => Subtitle (lit i) ts1 ts2 (lit "Hello"))
    ["1"; "2"; "3"; "4"; "5"; "6"; "7"; "8"; "9"; "10"; "11"]%string.

Definition store11 : files := {[ in_srt := serialize eleven ]}.

(** The state after the first batch of [eleven] under [echo]. *)
Definition after_first_batch : state :=
  snd (run_batches echo (Some (2, Appended 1)) french (progress_path out_srt)
         (parse_srt (serialize eleven))
         (take 1 (batch_starts (length (parse_srt (serialize eleven)))))
         (State [] (backup_existing clock out_srt store11) 0)).

(** Every batch of the run gets a translation that splits into as many
    parts as the batch has records; [calls] is the number of requests
    sent before the first of the batches. *)
Fixpoint shaped (self : translator) (lang : str) (subs : list subtitle)
    (starts : list nat) (calls : nat) : Prop :=
  match starts with
  | [] => True
  | i :: starts' =>
      let batch := slice subs i (i + batch_size) in
      match translate_text self calls (join delimiter (map text batch)) lang with
      | (Return (Some t), n) =>
          length (split delimiter t) = length batch
          /\ shaped self lang subs starts' n
      | _ => False
      end
  end.

(** Index and time range of a record. *)
Definition key (r : subtitle) : str * str * str :=
  (index r, start_time r, end_time r).

(** ** Definitions of the further properties *)

(** No newline of [s] is directly followed by a hyphen. *)
Fixpoint nl_dash_free (s : str) : bool :=
  match s with
  | [] => true
  | c :: s' =>
      negb (Ascii.eqb c nl
            && match s' with d :: _ => Ascii.eqb d "-" | [] => false end)
      && nl_dash_free s'
  end.

(** A service that fails twice, with an exception that has no response
    attribute, and answers [ok] from the third request on. *)
Definition flaky : translator :=
  Translator default_max_retries
    (fun n _ => if n <? 2 then Failed NoAttr else Replied (lit "ok")).

(** A store that holds an output file already, next to the input file. *)
Definition store_with_output : files :=
  <[ out_srt := lit "old" ]> store.

(** ** Block layouts with gaps, and the ending of a run *)





(** How a run ends when the loop over the batches ends with [r]. *)
Definition loop_outcome (r : option pyexn) : outcome :=
  match r with
  | None => Completed
  | Some KeyboardInterrupt => Interrupted
  | Some e => Aborted e
  end.

(** * Properties *)

(** ** The matcher: the fuel of a repetition is enough *)

(** The result of a match only depends on what the continuation does on
    the inputs that are not longer than the one matched. *)
Lemma star_loop_ext body greedy (k1 k2 : kont) fuel s g :
  (forall s g (k1 k2 : kont),
     (forall s' g', length s' <= length s -> k1 s' g' = k2 s' g') ->
     body s g k1 = body s g k2) ->
  (forall s' g', length s' <= length s -> k1 s' g' = k2 s' g') ->
  star_loop body greedy k1 fuel s g = star_loop body greedy k2 fuel s g.
Proof.
  intros Hbody. revert s g.
  induction fuel as [|fuel IH]; intros s g Hk; cbn [star_loop].
  - by rewrite (Hk s g).
  - rewrite (Hk s g) by done.
    rewrite (Hbody s g _
               (fun s' g' =>
                  if length s' <? length s
                  then star_loop body greedy k2 fuel s' g' else None)).
    + done.
    + intros s' g' Hs'. destruct (length s' <? length s) eqn:E; [|done].
      apply IH. intros s'' g'' Hs''. apply Hk. lia.
Qed.

Lemma exec_ext r s g (k1 k2 : kont) :
  (forall s' g', length s' <= length s -> k1 s' g' = k2 s' g') ->
  exec r s g k1 = exec r s g k2.
Proof.
  revert s g k1 k2.
  induction r as [c|p| |r1 IH1 r2 IH2|r1 IH1 r2 IH2|greedy r1 IH1|n r1 IH1];
    intros s g k1 k2 Hk; cbn [exec].
  - destruct s as [|x s]; [done|]. rewrite Hk by (simpl; lia). done.
  - destruct s as [|x s]; [done|]. rewrite Hk by (simpl; lia). done.
  - destruct s as [|x s]; by rewrite Hk.
  - apply IH1. intros s' g' Hs'. apply IH2.
    intros s'' g'' Hs''. apply Hk. lia.
  - by rewrite (IH1 s g k1 k2), (IH2 s g k1 k2).
  - apply star_loop_ext; [|done]. intros s0 g0 k3 k4. apply IH1.
  - apply IH1. intros s' g' Hs'. by apply Hk.
Qed.

(** Nothing matches when the rest of the pattern never does. *)
Lemma exec_none r s g : exec r s g (fun _ _ => None) = None.
Proof.
  revert s g.
  induction r as [c|p| |r1 IH1 r2 IH2|r1 IH1 r2 IH2|greedy r1 IH1|n r1 IH1];
    intros s g; cbn [exec].
  - destruct s as [|x s]; [done|]. by destruct (Ascii.eqb x c).
  - destruct s as [|x s]; [done|]. by destruct (p x).
  - destruct s as [|x s]; [done|]. by destruct (Ascii.eqb x nl).
  - transitivity (exec r1 s g (fun _ _ => None)); [|apply IH1].
    apply exec_ext. intros s' g' _. apply IH2.
  - by rewrite IH1, IH2.
  - generalize (length s) at 1. intros fuel. revert s g.
    induction fuel as [|fuel IH]; intros s g; cbn [star_loop].
    + by destruct greedy.
    + assert (exec r1 s g
                (fun s' g' =>
                   if length s' <? length s
                   then star_loop (exec r1) greedy (fun _ _ => None) fuel s' g'
                   else None) = None) as ->; [|by destruct greedy].
      transitivity (exec r1 s g (fun _ _ => None)); [|apply IH1].
      apply exec_ext. intros s' g' _.
      destruct (length s' <? length s); [apply IH|done].
  - transitivity (exec r1 s g (fun _ _ => None)); [|apply IH1].
    by apply exec_ext.
Qed.

(** At the end of the input an iteration cannot consume anything. *)
Lemma exec_nil_stuck r g (k : kont) :
  exec r [] g
    (fun s' g' => if length s' <? length ([] : str) then k s' g' else None)
  = None.
Proof.
  transitivity (exec r [] g (fun _ _ => None)); [|apply exec_none].
  apply exec_ext. intros s' g' _. simpl. by destruct (length s').
Qed.

(** A repetition entered with at least as much fuel as there are
    characters left gives the same result with any larger amount: the
    fuel [length s] that [exec] provides never runs out. *)
Lemma star_loop_fuel r greedy (k : kont) f1 f2 s g :
  length s <= f1 -> length s <= f2 ->
  star_loop (exec r) greedy k f1 s g = star_loop (exec r) greedy k f2 s g.
Proof.
  revert f2 s g. induction f1 as [|f1 IH]; intros f2 s g H1 H2.
  - destruct s; [|simpl in H1; lia].
    destruct f2 as [|f2]; [done|]. cbn [star_loop].
    by rewrite (exec_nil_stuck r g (star_loop (exec r) greedy k f2)).
  - destruct f2 as [|f2].
    + destruct s; [|simpl in H2; lia]. cbn [star_loop].
      by rewrite (exec_nil_stuck r g (star_loop (exec r) greedy k f1)).
    + cbn [star_loop].
      assert (exec r s g
                (fun s' g' =>
                   if length s' <? length s
                   then star_loop (exec r) greedy k f1 s' g' else None)
              = exec r s g
                  (fun s' g' =>
                     if length s' <? length s
                     then star_loop (exec r) greedy k f2 s' g' else None))
        as ->; [|done].
      apply exec_ext. intros s' g' Hs'.
      destruct (length s' <? length s) eqn:E; [|done].
      apply Nat.ltb_lt in E. apply IH; lia.
Qed.

(** ** The matcher on the pattern *)

Lemma span_app p s : fst (span p s) ++ snd (span p s) = s.
Proof.
  induction s as [|c s IH]; simpl; [done|].
  destruct (p c); [|done].
  destruct (span p s) as [a b]; simpl in *. by rewrite IH.
Qed.

Lemma span_cons_true p c s :
  p c = true -> span p (c :: s) = (c :: (span p s).1, (span p s).2).
Proof. simpl. intros ->. by destruct (span p s). Qed.

Lemma take_consumed {A} (a b : list A) :
  take (length (a ++ b) - length b) (a ++ b) = a.
Proof.
  rewrite length_app.
  replace (length a + length b - length b) with (length a) by lia.
  by rewrite take_app_length.
Qed.

Lemma star_digit_greedy (k : kont) s g fuel :
  length s <= fuel ->
  (forall c s' g', is_digit c = true -> k (c :: s') g' = None) ->
  star_loop (exec digit) true k fuel s g = k (span is_digit s).2 g.
Proof.
  intros Hf Hk. revert fuel Hf.
  induction s as [|c s IH]; intros fuel Hf.
  - destruct fuel; simpl; done.
  - destruct fuel as [|fuel]; [simpl in Hf; lia|].
    simpl in Hf. simpl.
    destruct (is_digit c) eqn:Hc.
    + assert ((length s <? S (length s)) = true) as -> by (apply Nat.ltb_lt; lia).
      rewrite IH by lia.
      destruct (span is_digit s) as [a b]; simpl.
      destruct (k b g) eqn:Hb; [done|]. by rewrite Hk.
    + done.
Qed.

Lemma exec_index (k : kont) s g :
  (forall c s' g', is_digit c = true -> k (c :: s') g' = None) ->
  exec (Group 1 (plus true digit)) s g k =
  match span is_digit s with
  | (d :: ds, rest) => k rest (<[1 := d :: ds]> g)
  | ([], _) => None
  end.
Proof.
  intros Hk. pose proof (span_app is_digit s) as Happ.
  destruct s as [|c s]; [done|].
  simpl in *. destruct (is_digit c) eqn:Hc; [|done].
  rewrite star_digit_greedy by (done || (intros; by apply Hk)).
  destruct (span is_digit s) as [a b]; simpl in *.
  do 2 f_equal.
  injection Happ as <-. apply (take_consumed (c :: a) b).
Qed.

Lemma exec_timestamp (k : kont) s g :
  exec timestamp s g k =
  if is_timestamp (take 12 s) then k (drop 12 s) g else None.
Proof.
  unfold timestamp, digit.
  do 12 (destruct s as [|? s];
         [by simpl; repeat (try done; case_match)|]).
  simpl.
  repeat match goal with
         | |- (if ?b then _ else _) = _ => destruct b; simpl; [|done]
         end.
  done.
Qed.

Lemma exec_lits p r (k : kont) s g :
  exec (lits p r) s g k =
  if starts_with p s then exec r (drop (length p) s) g k else None.
Proof.
  revert s. induction p as [|c p IH]; intros s; simpl; [done|].
  destruct s as [|x s]; [done|]. simpl.
  destruct (Ascii.eqb x c); simpl; [apply IH|done].
Qed.

Lemma is_dot_false c : is_dot c = false -> c = nl.
Proof.
  unfold is_dot. intros H. apply negb_false_iff in H.
  by apply Ascii.eqb_eq.
Qed.

Lemma span_dot_head s c r : (span is_dot s).2 = c :: r -> c = nl.
Proof.
  induction s as [|x s IH]; simpl; [done|].
  destruct (is_dot x) eqn:Hx.
  - destruct (span is_dot s); simpl in *. done.
  - simpl. intros [= <- _]. by apply is_dot_false.
Qed.

Lemma star_dot_lazy (k : kont) s g fuel :
  length s <= fuel ->
  star_loop (exec (Class is_dot)) false
    (fun s' g' => exec (Lit nl) s' g' k) fuel s g =
  match (span is_dot s).2 with
  | _ :: r => k r g
  | [] => None
  end.
Proof.
  revert fuel. induction s as [|c s IH]; intros fuel Hf.
  - destruct fuel; done.
  - simpl in Hf. destruct fuel as [|fuel]; [lia|].
    simpl. unfold is_dot at 1 3.
    destruct (Ascii.eqb c nl) eqn:Hc; simpl.
    + by destruct (k s g).
    + assert ((length s <? S (length s)) = true) as -> by (apply Nat.ltb_lt; lia).
      rewrite IH by lia.
      by destruct (span is_dot s).
Qed.

Lemma exec_line (k : kont) s g :
  exec line s g k =
  match (span is_dot s).2 with
  | _ :: r => k r g
  | [] => None
  end.
Proof. simpl. by apply star_dot_lazy. Qed.

Lemma read_body_line s :
  read_body false s =
  match span is_dot s with
  | (a, _ :: r) => prod_map (app (a ++ [nl])) id <$> read_body true r
  | (_, []) => None
  end.
Proof.
  induction s as [|c s IH]; simpl; [done|].
  unfold is_dot at 1.
  destruct (Ascii.eqb c nl) eqn:Hc; simpl.
  - apply Ascii.eqb_eq in Hc as ->.
    destruct (read_body true s) as [[??]|]; done.
  - rewrite IH. destruct (span is_dot s) as [a [|x r]]; [done|].
    destruct (read_body true r) as [[??]|]; done.
Qed.

Lemma body_exit_eq s0 s' g' :
  body_exit s0 s' g' =
  match s' with
  | [] => Some ([], <[4 := s0]> g')
  | c :: t =>
      if Ascii.eqb c nl
      then Some (t, <[4 := take (length s0 - length s') s0]> g')
      else None
  end.
Proof.
  unfold body_exit. destruct s' as [|c t]; simpl.
  - by rewrite Nat.sub_0_r, firstn_all.
  - by destruct (Ascii.eqb c nl).
Qed.

Lemma star_line_lazy s0 pre s g fuel :
  s0 = pre ++ s ->
  length s <= fuel ->
  star_loop (exec line) false (body_exit s0) fuel s g =
  (fun '(body, rest) => (rest, <[4 := pre ++ body]> g)) <$> read_body true s.
Proof.
  revert pre s. induction fuel as [|fuel IH]; intros pre s Hs0 Hf.
  - destruct s; [|simpl in Hf; lia]. cbn [star_loop].
    rewrite body_exit_eq. simpl. by rewrite Hs0.
  - destruct s as [|c s].
    { cbn [star_loop]. rewrite body_exit_eq. simpl. by rewrite Hs0. }
    cbn [star_loop]. rewrite exec_line, body_exit_eq.
    cbn [read_body].
    destruct (Ascii.eqb c nl) eqn:Hc.
    + rewrite Hs0, (take_consumed pre (c :: s)). cbn. by rewrite app_nil_r.
    + rewrite read_body_line.
      assert (is_dot c = true) as Hdot by (unfold is_dot; by rewrite Hc).
      rewrite (span_cons_true _ _ _ Hdot).
      pose proof (span_app is_dot s) as Happ.
      pose proof (span_dot_head s) as Hhd.
      destruct (span is_dot s) as [a [|x r]]; cbn [fst snd] in *; [done|].
      rewrite (Hhd x r eq_refl) in *. subst s.
      assert ((length r <? length (c :: a ++ nl :: r)) = true) as ->.
      { apply Nat.ltb_lt. simpl. rewrite length_app. simpl. lia. }
      rewrite (IH (pre ++ c :: a ++ [nl]) r).
      * destruct (read_body true r) as [[body rest]|]; simpl; [|done].
        rewrite <- (app_assoc pre). simpl. rewrite <- (app_assoc a). done.
      * rewrite Hs0, <- (app_assoc pre). simpl. by rewrite <- (app_assoc a).
      * simpl in Hf. rewrite length_app in Hf. simpl in Hf. lia.
Qed.

Lemma exec_seq r1 r2 s g (k : kont) :
  exec (Seq r1 r2) s g k = exec r1 s g (fun s' g' => exec r2 s' g' k).
Proof. done. Qed.

Lemma exec_lit_seq c r s g (k : kont) :
  exec (Seq (Lit c) r) s g k =
  if starts_with [c] s then exec r (drop 1 s) g k else None.
Proof. apply (exec_lits [c] r). Qed.

Lemma is_timestamp_length t : is_timestamp t = true -> length t = 12.
Proof.
  do 12 (destruct t as [|? t]; [done|]). by destruct t.
Qed.

Lemma exec_group_timestamp n (k : kont) s g :
  exec (Group n timestamp) s g k =
  if is_timestamp (take 12 s) then k (drop 12 s) (<[n := take 12 s]> g)
  else None.
Proof.
  cbn [exec]. rewrite exec_timestamp.
  destruct (is_timestamp (take 12 s)) eqn:Hts; [|done].
  apply is_timestamp_length in Hts. rewrite length_take in Hts.
  rewrite length_drop.
  by replace (length s - (length s - 12)) with 12 by lia.
Qed.

Lemma is_digit_not_nl c : is_digit c = true -> Ascii.eqb c nl = false.
Proof.
  intros Hc. destruct (Ascii.eqb c nl) eqn:E; [|done].
  apply Ascii.eqb_eq in E. by subst c.
Qed.

Lemma exec_body s g :
  exec (Seq (Group 4 (Star false line)) (Alt (Lit nl) Eol)) s g
    (fun s' g' => Some (s', g')) =
  (fun '(body, rest) => (rest, <[4 := body]> g)) <$> read_body true s.
Proof.
  change (star_loop (exec line) false (body_exit s) (length s) s g = 
          (fun '(body, rest) => (rest, <[4 := body]> g)) <$> read_body true s).
  by rewrite (star_line_lazy s [] s).
Qed.

(** A match of the pattern at the start of the input is what
    [read_block] reads. *)
Lemma match_at_subtitle_pattern s :
  match_at subtitle_pattern s =
  (fun '(b, rest) => (rest, block_groups b)) <$> read_block s.
Proof.
  unfold match_at, subtitle_pattern, read_block.
  rewrite exec_seq, exec_index.
  2:{ intros c s' g' Hc. rewrite exec_lit_seq. simpl.
      by rewrite (is_digit_not_nl c Hc). }
  destruct (span is_digit s) as [[|d ds] [|c s1]]; try done.
  rewrite exec_lit_seq.
  change (starts_with [nl] (c :: s1)) with (Ascii.eqb c nl && true).
  change (drop 1 (c :: s1)) with s1. rewrite andb_true_r.
  destruct (Ascii.eqb c nl); [|done]. cbn [andb].
  rewrite exec_seq, exec_group_timestamp.
  destruct (is_timestamp (take 12 s1)); [|done]. cbn [andb].
  rewrite exec_lits.
  destruct (starts_with (lit " --> ") (drop 12 s1)); [|done]. cbn [andb].
  rewrite drop_drop.
  change (12 + length (lit " --> ")) with 17.
  rewrite exec_seq, exec_group_timestamp.
  destruct (is_timestamp (take 12 (drop 17 s1))); [|done]. cbn [andb].
  rewrite drop_drop. change (17 + 12) with 29.
  rewrite exec_lit_seq.
  destruct (starts_with [nl] (drop 29 s1)); [|done].
  rewrite drop_drop. change (29 + 1) with 30.
  fold line. rewrite exec_body.
  by destruct (read_body true (drop 30 s1)) as [[body rest]|].
Qed.

(** ** [finditer] on the pattern *)

Lemma read_body_shorter bol s body rest :
  read_body bol s = Some (body, rest) -> length rest <= length s.
Proof.
  revert bol body rest. induction s as [|c s IH]; intros bol body rest; simpl.
  - destruct bol; [|done]. by intros [= _ <-].
  - destruct (Ascii.eqb c nl), bol;
      try (intros [= _ <-]; lia);
      (destruct (read_body _ s) as [[b r]|] eqn:E; [|done]);
      simpl; intros [= _ <-]; apply IH in E; lia.
Qed.

Lemma read_block_shorter s b rest :
  read_block s = Some (b, rest) -> length rest < length s.
Proof.
  unfold read_block. pose proof (span_app is_digit s) as Happ.
  destruct (span is_digit s) as [[|d ds] [|c s1]]; try done.
  case_match; [|done].
  destruct (read_body true (drop 30 s1)) as [[body r]|] eqn:E; [|done].
  simpl. intros [= _ <-]. apply read_body_shorter in E.
  rewrite length_drop in E. rewrite <- Happ. simpl.
  rewrite length_app. simpl. lia.
Qed.

Lemma scan_fuel n m s :
  length s < n -> length s < m -> scan n s = scan m s.
Proof.
  revert m s. induction n as [|n IH]; intros m s Hn Hm; [lia|].
  destruct m as [|m]; [lia|]. simpl.
  destruct (read_block s) as [[b rest]|] eqn:E.
  - apply read_block_shorter in E. f_equal. apply IH; lia.
  - destruct s as [|c s]; [done|]. simpl in *. apply IH; lia.
Qed.

Lemma parse_blocks_match s b rest :
  read_block s = Some (b, rest) -> parse_blocks s = b :: parse_blocks rest.
Proof.
  intros E. unfold parse_blocks. cbn [scan]. rewrite E. f_equal.
  apply read_block_shorter in E.
  change (scan (length s) rest = scan (S (length rest)) rest).
  apply scan_fuel; lia.
Qed.

Lemma parse_blocks_skip c s :
  read_block (c :: s) = None -> parse_blocks (c :: s) = parse_blocks s.
Proof.
  intros E. unfold parse_blocks.
  change (scan (S (length (c :: s))) (c :: s))
    with (match read_block (c :: s) with
          | Some (b, rest) => b :: scan (length (c :: s)) rest
          | None => scan (length (c :: s)) s
          end).
  by rewrite E.
Qed.

Lemma parse_blocks_nil : parse_blocks [] = [].
Proof. done. Qed.

Lemma finditer_scan fuel s :
  finditer_from fuel subtitle_pattern s = map block_groups (scan fuel s).
Proof.
  revert s. induction fuel as [|fuel IH]; intros s; [done|].
  cbn [finditer_from scan]. rewrite match_at_subtitle_pattern.
  destruct (read_block s) as [[b rest]|] eqn:E; simpl.
  - apply read_block_shorter in E.
    apply Nat.ltb_lt in E. rewrite E. by rewrite IH.
  - destruct s; [done|]. apply IH.
Qed.

(** [parse_srt] in terms of the direct reader. *)
Lemma parse_srt_blocks content :
  parse_srt content = map block_subtitle (parse_blocks content).
Proof.
  unfold parse_srt, finditer, parse_blocks.
  rewrite finditer_scan, map_map. done.
Qed.

(** Characters that are not digits are passed over by the search. *)
Lemma parse_srt_skip junk s :
  forallb (fun c => negb (is_digit c)) junk = true ->
  parse_srt (junk ++ s) = parse_srt s.
Proof.
  rewrite !parse_srt_blocks. intros H. f_equal.
  induction junk as [|c junk IH]; [done|].
  simpl in H. apply andb_true_iff in H as [Hc H].
  apply negb_true_iff in Hc.
  change ((c :: junk) ++ s) with (c :: (junk ++ s)).
  rewrite parse_blocks_skip; [by apply IH|].
  unfold read_block. simpl. by rewrite Hc.
Qed.

(** ** [strip] *)

Lemma lstrip_idem s : lstrip (lstrip s) = lstrip s.
Proof.
  induction s as [|c s IH]; simpl; [done|].
  destruct (isspace c) eqn:Hc; [done|]. simpl. by rewrite Hc.
Qed.

Lemma rstrip_idem s : rstrip (rstrip s) = rstrip s.
Proof.
  induction s as [|c s IH]; simpl; [done|].
  destruct (rstrip s) as [|x r] eqn:E.
  - destruct (isspace c) eqn:Hc; simpl; [done|]. by rewrite Hc.
  - simpl in *. rewrite IH. done.
Qed.

Lemma rstrip_cons_keep c s :
  isspace c = false -> rstrip (c :: s) = c :: rstrip s.
Proof. simpl. intros ->. by destruct (rstrip s). Qed.

Lemma lstrip_head s c t : lstrip s = c :: t -> isspace c = false.
Proof.
  induction s as [|x s IH]; simpl; [done|].
  destruct (isspace x) eqn:Hx; [done|]. by intros [= <- _].
Qed.

Lemma lstrip_fix s c : isspace c = false -> lstrip (c :: s) = c :: s.
Proof. simpl. by intros ->. Qed.

Lemma strip_lstrip s : lstrip (strip s) = strip s.
Proof.
  unfold strip. destruct (lstrip s) as [|c t] eqn:E; [done|].
  apply lstrip_head in E. rewrite rstrip_cons_keep by done.
  by apply lstrip_fix.
Qed.

Lemma strip_rstrip s : rstrip (strip s) = strip s.
Proof. apply rstrip_idem. Qed.

Lemma strip_idem s : strip (strip s) = strip s.
Proof.
  unfold strip at 1. rewrite strip_lstrip. apply strip_rstrip.
Qed.

Lemma rstrip_app_space s c : isspace c = true -> rstrip (s ++ [c]) = rstrip s.
Proof.
  intros Hc. induction s as [|x s IH]; simpl; [by rewrite Hc|].
  by rewrite IH.
Qed.

Lemma rstrip_prefix s : exists w, s = rstrip s ++ w.
Proof.
  induction s as [|c s [w IH]]; [by exists []|]. simpl.
  destruct (rstrip s) as [|x r].
  - destruct (isspace c); [by exists (c :: s)|].
    exists s. simpl. done.
  - exists w. simpl. f_equal. exact IH.
Qed.

Lemma lstrip_suffix s : exists w, s = w ++ lstrip s.
Proof.
  induction s as [|c s [w IH]]; [by exists []|]. simpl.
  destruct (isspace c); [|by exists []].
  exists (c :: w). simpl. f_equal. exact IH.
Qed.

Lemma rstrip_last s c : rstrip (s ++ [c]) = s ++ [c] -> isspace c = false.
Proof.
  destruct (isspace c) eqn:Hc; [|done].
  rewrite rstrip_app_space by done. intros E.
  destruct (rstrip_prefix s) as [w Hw].
  rewrite E in Hw. apply (f_equal length) in Hw.
  rewrite !length_app in Hw. simpl in Hw. lia.
Qed.

Lemma isspace_nl : isspace nl = true.
Proof. done. Qed.

(** A stripped, non-empty text followed by a newline strips back to it. *)
Lemma strip_app_nl t :
  t <> [] -> lstrip t = t -> rstrip t = t -> strip (t ++ [nl]) = t.
Proof.
  intros Hne Hl Hr. unfold strip.
  destruct t as [|c t]; [done|].
  pose proof (lstrip_head _ _ _ Hl) as Hc.
  change ((c :: t) ++ [nl]) with (c :: (t ++ [nl])).
  rewrite lstrip_fix by done.
  change (c :: (t ++ [nl])) with ((c :: t) ++ [nl]).
  by rewrite rstrip_app_space.
Qed.

Lemma lstrip_snoc t c :
  lstrip (t ++ [c]) =
  match lstrip t with
  | [] => if isspace c then [] else [c]
  | u => u ++ [c]
  end.
Proof.
  induction t as [|x t IH]; simpl; [done|].
  destruct (isspace x); [apply IH|done].
Qed.

(** [rstrip] is [lstrip] seen from the other end. *)
Lemma rstrip_rev s : rstrip s = rev (lstrip (rev s)).
Proof.
  induction s as [|c s IH]; [done|].
  cbn [rstrip rev]. rewrite lstrip_snoc.
  assert (lstrip (rev s) = rev (rstrip s)) as ->
    by (by rewrite IH, rev_involutive).
  destruct (rstrip s) as [|x r]; cbn [rev].
  - simpl. by destruct (isspace c).
  - destruct (rev r ++ [x]) as [|y u] eqn:E.
    + by destruct (rev r).
    + rewrite <- E, rev_app_distr. cbn [rev app].
      by rewrite rev_app_distr, rev_involutive.
Qed.

(** ** Reading a block from its source text *)

Lemma no_empty_line_app bol a b :
  no_empty_line bol (a ++ b) =
  no_empty_line bol a && no_empty_line (bol_after bol a) b.
Proof.
  revert bol. induction a as [|c a IH]; intros bol; simpl; [done|].
  destruct (Ascii.eqb c nl); rewrite IH; [|done].
  by rewrite andb_assoc.
Qed.

Lemma bol_after_app bol a b :
  bol_after bol (a ++ b) = bol_after (bol_after bol a) b.
Proof.
  revert bol. induction a as [|c a IH]; intros bol; simpl; [done|]. apply IH.
Qed.

Lemma no_empty_line_weaken bol s :
  no_empty_line bol s = true -> no_empty_line false s = true.
Proof.
  destruct s as [|c s]; simpl; [done|].
  destruct (Ascii.eqb c nl); [|done].
  destruct bol; simpl; done.
Qed.

Lemma read_body_app bol t tail :
  no_empty_line bol t = true ->
  read_body bol (t ++ tail) =
  prod_map (app t) id <$> read_body (bol_after bol t) tail.
Proof.
  revert bol. induction t as [|c t IH]; intros bol H; simpl in *.
  - by destruct (read_body bol tail) as [[??]|].
  - destruct (Ascii.eqb c nl).
    + destruct bol; [done|]. simpl in H. rewrite IH by done.
      by destruct (read_body _ tail) as [[??]|].
    + rewrite IH by done.
      by destruct (read_body _ tail) as [[??]|].
Qed.

Lemma read_body_no_empty_line bol s body rest :
  read_body bol s = Some (body, rest) ->
  no_empty_line bol body = true /\ bol_after bol body = true.
Proof.
  revert bol body rest. induction s as [|c s IH]; intros bol body rest; simpl.
  - destruct bol; [|done]. by intros [= <- _].
  - destruct (Ascii.eqb c nl) eqn:Hc.
    + destruct bol; [by intros [= <- _]|].
      destruct (read_body true s) as [[b r]|] eqn:E; [|done].
      simpl. intros [= <- _]. simpl. rewrite Hc. simpl. by apply (IH _ _ r).
    + destruct (read_body false s) as [[b r]|] eqn:E; [|done].
      simpl. intros [= <- _]. simpl. rewrite Hc. by apply (IH _ _ r).
Qed.

Lemma span_all p a c b :
  forallb p a = true -> p c = false -> span p (a ++ c :: b) = (a, c :: b).
Proof.
  intros Ha Hc. induction a as [|x a IH]; simpl in *; [by rewrite Hc|].
  apply andb_true_iff in Ha as [-> Ha]. by rewrite IH.
Qed.

Lemma starts_with_app p s : starts_with p (p ++ s) = true.
Proof.
  induction p as [|c p IH]; simpl; [done|].
  by rewrite Ascii.eqb_refl.
Qed.

Lemma is_digit_nl : is_digit nl = false.
Proof. done. Qed.

Lemma header_layout st en s :
  length st = 12 -> length en = 12 ->
  let s1 := st ++ lit " --> " ++ en ++ nl :: s in
  take 12 s1 = st /\ drop 12 s1 = lit " --> " ++ en ++ nl :: s
  /\ take 12 (drop 17 s1) = en /\ drop 29 s1 = nl :: s /\ drop 30 s1 = s.
Proof.
  intros Lst Len.
  do 13 (destruct st as [|? st]; try done).
  do 13 (destruct en as [|? en]; try done).
Qed.

Lemma read_block_header idx st en s :
  idx <> [] ->
  forallb is_digit idx = true ->
  is_timestamp st = true ->
  is_timestamp en = true ->
  read_block (header idx st en ++ s) =
  (fun '(body, rest) => (Block idx st en body, rest)) <$> read_body true s.
Proof.
  intros Hne Hidx Hst Hen. unfold read_block, header.
  rewrite <- app_assoc. cbn [app].
  rewrite (span_all is_digit idx nl) by done.
  destruct idx as [|d ds]; [done|].
  rewrite Ascii.eqb_refl. cbn [andb].
  pose proof (is_timestamp_length _ Hst) as Lst.
  pose proof (is_timestamp_length _ Hen) as Len.
  rewrite <- !app_assoc. cbn [app].
  destruct (header_layout st en s Lst Len) as (-> & -> & -> & -> & ->).
  rewrite Hst, Hen, starts_with_app. cbn [andb starts_with].
  by rewrite Ascii.eqb_refl.
Qed.

(** ** What the parser returns *)

Lemma span_forall p s : forallb p (fst (span p s)) = true.
Proof.
  induction s as [|c s IH]; simpl; [done|].
  destruct (p c) eqn:Hc; [|done].
  destruct (span p s); simpl in *. by rewrite Hc.
Qed.

Lemma isspace_not_nl c : isspace c = false -> Ascii.eqb c nl = false.
Proof.
  intros Hc. destruct (Ascii.eqb c nl) eqn:E; [|done].
  apply Ascii.eqb_eq in E. by subst c.
Qed.

Lemma no_empty_line_strip body :
  no_empty_line true body = true -> no_empty_line true (strip body) = true.
Proof.
  intros H. unfold strip.
  destruct (lstrip_suffix body) as [w Hw].
  rewrite Hw, no_empty_line_app in H. apply andb_true_iff in H as [_ H].
  apply no_empty_line_weaken in H.
  assert (no_empty_line true (lstrip body) = true) as H'.
  { destruct (lstrip body) as [|c t] eqn:E; [done|].
    apply lstrip_head in E. apply isspace_not_nl in E.
    simpl in *. by rewrite E in *. }
  destruct (rstrip_prefix (lstrip body)) as [w' Hw'].
  rewrite Hw', no_empty_line_app in H'.
  by apply andb_true_iff in H' as [H' _].
Qed.

Lemma read_block_canonical s b rest :
  read_block s = Some (b, rest) -> canonical (block_subtitle b).
Proof.
  unfold read_block. pose proof (span_forall is_digit s) as Hd.
  destruct (span is_digit s) as [[|d ds] [|c s1]]; try done.
  case_match eqn:Hg; [|done].
  destruct (read_body true (drop 30 s1)) as [[body r]|] eqn:E; [|done].
  simpl. intros [= <- _].
  repeat (apply andb_true_iff in Hg as [Hg ?]).
  apply read_body_no_empty_line in E as [E _].
  unfold canonical, block_subtitle; simpl.
  split_and!; try done.
  - apply strip_lstrip.
  - apply strip_rstrip.
  - by apply no_empty_line_strip.
Qed.

Lemma scan_canonical fuel s : Forall canonical (map block_subtitle (scan fuel s)).
Proof.
  revert s. induction fuel as [|fuel IH]; intros s; simpl; [done|].
  destruct (read_block s) as [[b rest]|] eqn:E.
  - simpl. constructor; [by eapply read_block_canonical|apply IH].
  - destruct s; [done|apply IH].
Qed.

Lemma parse_srt_canonical content : Forall canonical (parse_srt content).
Proof. rewrite parse_srt_blocks. apply scan_canonical. Qed.

(** ** Serializing and parsing again *)

Lemma render_header r :
  render r = header (index r) (start_time r) (end_time r) ++ text r ++ [nl; nl].
Proof.
  unfold render, header. rewrite <- !app_assoc. cbn [app].
  by rewrite <- !app_assoc.
Qed.

Lemma rstrip_bol_after bol t :
  t <> [] -> rstrip t = t -> bol_after bol t = false.
Proof.
  intros Hne Hr. destruct (exists_last Hne) as (t' & c & ->).
  apply rstrip_last in Hr. apply isspace_not_nl in Hr.
  rewrite bol_after_app. done.
Qed.

Lemma read_block_nl s : read_block (nl :: s) = None.
Proof. done. Qed.

Lemma parse_blocks_render r rest :
  canonical r ->
  map block_subtitle (parse_blocks (render r ++ rest)) =
  r :: map block_subtitle (parse_blocks rest).
Proof.
  intros (Hne & Hidx & Hst & Hen & Hl & Hr & Hnel).
  rewrite render_header, <- !app_assoc.
  destruct r as [idx st en t]; simpl in *.
  destruct (decide (t = [])) as [->|Ht].
  - erewrite parse_blocks_match; last first.
    { rewrite read_block_header by done. simpl. reflexivity. }
    rewrite parse_blocks_skip by apply read_block_nl. done.
  - erewrite parse_blocks_match; last first.
    { rewrite read_block_header by done.
      change (t ++ nl :: nl :: rest) with (t ++ [nl] ++ nl :: rest).
      rewrite app_assoc, read_body_app.
      - rewrite bol_after_app. simpl. reflexivity.
      - rewrite no_empty_line_app, Hnel. simpl.
        by rewrite (rstrip_bol_after true t). }
    simpl. unfold block_subtitle at 1. simpl.
    by rewrite app_nil_r, strip_app_nl.
Qed.

(** Parsing undoes serializing on the records the parser returns. *)
Lemma parse_srt_serialize rs :
  Forall canonical rs -> parse_srt (serialize rs) = rs.
Proof.
  rewrite parse_srt_blocks. unfold serialize.
  induction 1 as [|r rs Hr _ IH]; [done|].
  simpl. rewrite parse_blocks_render by done. by rewrite IH.
Qed.

(** ** Saving the records and reading the file again *)

Lemma universal_newlines_no_cr s : no_cr s = true -> universal_newlines s = s.
Proof.
  induction s as [|c s IH]; simpl; [done|].
  intros [Hc Hs]%andb_true_iff. apply negb_true_iff in Hc.
  by rewrite Hc, IH.
Qed.

Lemma universal_newlines_is_no_cr s : no_cr (universal_newlines s) = true.
Proof.
  induction s as [s IH] using (induction_ltof1 _ (@length ascii)).
  unfold ltof in IH. destruct s as [|c s]; [done|]. simpl.
  destruct (Ascii.eqb c cr) eqn:Hc; simpl.
  - destruct s as [|c' s]; [done|].
    destruct (Ascii.eqb c' nl); apply IH; simpl; lia.
  - rewrite Hc. simpl. apply IH. simpl. lia.
Qed.

Lemma no_cr_app a b : no_cr (a ++ b) = no_cr a && no_cr b.
Proof. apply forallb_app. Qed.

Lemma no_cr_take n s : no_cr s = true -> no_cr (take n s) = true.
Proof.
  intros H. rewrite <- (take_drop n s), no_cr_app in H.
  by apply andb_true_iff in H as [H _].
Qed.

Lemma no_cr_drop n s : no_cr s = true -> no_cr (drop n s) = true.
Proof.
  intros H. rewrite <- (take_drop n s), no_cr_app in H.
  by apply andb_true_iff in H as [_ H].
Qed.

Lemma no_cr_strip s : no_cr s = true -> no_cr (strip s) = true.
Proof.
  intros H. unfold strip.
  destruct (lstrip_suffix s) as [w Hw].
  rewrite Hw, no_cr_app in H. apply andb_true_iff in H as [_ H].
  destruct (rstrip_prefix (lstrip s)) as [w' Hw'].
  rewrite Hw', no_cr_app in H. by apply andb_true_iff in H as [H _].
Qed.

Lemma read_body_no_cr bol s body rest :
  read_body bol s = Some (body, rest) -> no_cr s = true ->
  no_cr body = true /\ no_cr rest = true.
Proof.
  revert bol body rest. induction s as [|c s IH]; intros bol body rest; simpl.
  - destruct bol; [|done]. by intros [= <- <-].
  - intros H [Hc Hs]%andb_true_iff.
    destruct (Ascii.eqb c nl), bol; try (by injection H as <- <-);
      (destruct (read_body _ s) as [[b r]|] eqn:E; [|done]);
      simpl in H; injection H as <- <-;
      destruct (IH _ _ _ E Hs) as [Hb Hr]; simpl; by rewrite Hc, Hb.
Qed.

Lemma read_block_no_cr s b rest :
  read_block s = Some (b, rest) -> no_cr s = true ->
  record_no_cr (block_subtitle b) = true /\ no_cr rest = true.
Proof.
  unfold read_block. pose proof (span_app is_digit s) as Happ.
  destruct (span is_digit s) as [[|d ds] [|c s1]]; try done.
  case_match; [|done].
  destruct (read_body true (drop 30 s1)) as [[body r]|] eqn:E; [|done].
  cbn [fmap option_fmap option_map]. intros [= <- <-] Hs.
  cbn [fst snd] in Happ. rewrite <- Happ in Hs.
  rewrite (no_cr_app (d :: ds) (c :: s1)) in Hs.
  apply andb_true_iff in Hs as [Hd Hs1].
  change (c :: s1) with ([c] ++ s1) in Hs1. rewrite no_cr_app in Hs1.
  apply andb_true_iff in Hs1 as [_ Hs1].
  destruct (read_body_no_cr _ _ _ _ E) as [Hb Hr]; [by apply no_cr_drop|].
  split; [|done]. unfold record_no_cr, block_subtitle.
  cbn [index start_time end_time text b_index b_start b_end b_body].
  rewrite Hd, !no_cr_take, no_cr_strip; try done. by apply no_cr_drop.
Qed.

Lemma scan_no_cr fuel s :
  no_cr s = true ->
  forallb record_no_cr (map block_subtitle (scan fuel s)) = true.
Proof.
  revert s. induction fuel as [|fuel IH]; intros s Hs; simpl; [done|].
  destruct (read_block s) as [[b rest]|] eqn:E.
  - destruct (read_block_no_cr _ _ _ E Hs) as [Hb Hr]. simpl.
    by rewrite Hb, IH.
  - destruct s as [|c s]; [done|]. apply IH.
    simpl in Hs. by apply andb_true_iff in Hs as [_ Hs].
Qed.

Lemma serialize_no_cr rs :
  forallb record_no_cr rs = true -> no_cr (serialize rs) = true.
Proof.
  unfold serialize. induction rs as [|r rs IH]; simpl; [done|].
  intros [Hr Hrs]%andb_true_iff. rewrite no_cr_app, IH by done.
  unfold record_no_cr in Hr. repeat (apply andb_true_iff in Hr as [Hr ?]).
  unfold render. rewrite !no_cr_app. by repeat (apply andb_true_iff; split).
Qed.

(** The progress file of the records parsed from a text read from a file
    reads back as it was written, and parses to the same records. *)
Lemma save_progress_read_back content path fs :
  no_cr content = true ->
  read_file (save_progress (parse_srt content) path fs) path
    = Some (serialize (parse_srt content))
  /\ (parse_srt <$> read_file (save_progress (parse_srt content) path fs) path)
     = Some (parse_srt content).
Proof.
  intros H. unfold read_file, save_progress. rewrite lookup_insert_eq. simpl.
  rewrite universal_newlines_no_cr.
  - split; [done|]. f_equal.
    apply parse_srt_serialize, parse_srt_canonical.
  - apply serialize_no_cr. rewrite parse_srt_blocks. by apply scan_no_cr.
Qed.

(** ** Well-formed source blocks *)

Lemma dots_no_empty_line bol l :
  forallb is_dot l = true -> no_empty_line bol l = true.
Proof.
  revert bol. induction l as [|c l IH]; intros bol; simpl; [done|].
  unfold is_dot at 1. intros [Hc Hl]%andb_true_iff.
  apply negb_true_iff in Hc. rewrite Hc. by apply IH.
Qed.

Lemma dots_bol_after bol l :
  text_line l = true -> bol_after bol l = false.
Proof.
  unfold text_line. intros [Hne Hl]%andb_true_iff.
  revert bol. induction l as [|c l IH]; intros bol; [done|].
  simpl in *. apply andb_true_iff in Hl as [Hc Hl].
  unfold is_dot in Hc. apply negb_true_iff in Hc.
  destruct l as [|x l]; [done|]. by apply IH.
Qed.

Lemma lines_no_empty_line ls :
  forallb text_line ls = true ->
  no_empty_line true (concat (map (fun l => l ++ [nl]) ls)) = true
  /\ bol_after true (concat (map (fun l => l ++ [nl]) ls)) = true.
Proof.
  induction ls as [|l ls IH]; simpl; [done|].
  intros [Hl Hls]%andb_true_iff. destruct (IH Hls) as [IH1 IH2].
  rewrite <- app_assoc, no_empty_line_app, bol_after_app. simpl.
  rewrite (dots_bol_after true l Hl). simpl.
  rewrite IH1, IH2, andb_true_r. split; [|done].
  apply dots_no_empty_line.
  unfold text_line in Hl. by apply andb_true_iff in Hl as [_ Hl].
Qed.

Lemma well_formed_read b tail :
  well_formed b = true ->
  read_block (block_source b ++ tail) =
  (fun '(body, rest) =>
     (Block (s_index b) (s_start b) (s_end b) (raw_text b ++ body), rest))
  <$> read_body true tail.
Proof.
  unfold well_formed. intros H.
  repeat (apply andb_true_iff in H as [H ?]).
  destruct (lines_no_empty_line (s_lines b)) as [Hnel Hbol]; [done|].
  unfold block_source. rewrite <- app_assoc, read_block_header; try done.
  - rewrite read_body_app by done. fold (raw_text b) in Hbol. rewrite Hbol.
    by destruct (read_body true tail) as [[??]|].
  - by destruct (s_index b).
Qed.

(** A well-formed block followed by an empty line gives its record, and
    the search goes on after the empty line. *)
Lemma parse_srt_block b rest :
  well_formed b = true ->
  parse_srt (block_source b ++ nl :: rest) = parsed b :: parse_srt rest.
Proof.
  intros H. rewrite !parse_srt_blocks.
  erewrite parse_blocks_match; last first.
  { rewrite well_formed_read by done. simpl. reflexivity. }
  simpl. unfold block_subtitle at 1, parsed. simpl. by rewrite app_nil_r.
Qed.

(** A well-formed block that ends the input gives its record. *)
Lemma parse_srt_last_block b :
  well_formed b = true -> parse_srt (block_source b) = [parsed b].
Proof.
  intros H. rewrite !parse_srt_blocks.
  rewrite <- (app_nil_r (block_source b)).
  erewrite parse_blocks_match; last first.
  { rewrite well_formed_read by done. simpl. reflexivity. }
  simpl. unfold block_subtitle at 1, parsed. simpl. by rewrite app_nil_r.
Qed.

Lemma parse_srt_source bs final_blank :
  forallb well_formed bs = true ->
  parse_srt (srt_source bs final_blank) = map parsed bs.
Proof.
  induction bs as [|b bs IH]; [done|].
  intros [Hb Hbs]%andb_true_iff.
  destruct bs as [|b' bs].
  - simpl. destruct final_blank.
    + by rewrite parse_srt_block.
    + rewrite app_nil_r. by apply parse_srt_last_block.
  - change (srt_source (b :: b' :: bs) final_blank)
      with (block_source b ++ nl :: srt_source (b' :: bs) final_blank).
    rewrite parse_srt_block by done. by rewrite IH.
Qed.

(** ** The loop over the parts of a batch *)

Lemma fires_none k ph : fires None k ph = false.
Proof. done. Qed.

Lemma paired_nil_l parts : paired [] parts = [].
Proof. done. Qed.

Lemma paired_nil_r batch : paired batch [] = [].
Proof. by destruct batch. Qed.

(** Without a signal the loop appends the pairs, and fails with
    [IndexError] exactly when parts are left over. *)
Lemma append_parts_quiet k batch parts j acc :
  append_parts None k batch parts j acc =
  (if length (drop j batch) <? length parts then Some IndexError else None,
   acc ++ paired (drop j batch) parts).
Proof.
  revert j acc. induction parts as [|part parts IH]; intros j acc; simpl.
  - by rewrite paired_nil_r, app_nil_r.
  - destruct (batch !! j) as [sub|] eqn:E.
    + rewrite IH. rewrite (drop_S _ _ _ E). simpl.
      by rewrite <- app_assoc.
    + apply lookup_ge_None in E. rewrite drop_ge by done. simpl.
      by rewrite app_nil_r.
Qed.

Lemma paired_length batch parts :
  length (paired batch parts) = min (length batch) (length parts).
Proof. unfold paired. by rewrite length_zip_with, length_map. Qed.

Lemma paired_cons sub batch p parts :
  paired (sub :: batch) (p :: parts) = with_text sub (strip p) :: paired batch parts.
Proof. done. Qed.

Lemma paired_fields batch parts :
  length parts <= length batch ->
  map index (paired batch parts) = map index (take (length parts) batch)
  /\ map start_time (paired batch parts) = map start_time (take (length parts) batch)
  /\ map end_time (paired batch parts) = map end_time (take (length parts) batch)
  /\ map text (paired batch parts) = map strip parts.
Proof.
  revert parts. induction batch as [|sub batch IH]; intros [|p parts] Hl;
    try done; [simpl in Hl; lia|].
  rewrite paired_cons. cbn [length take map].
  destruct (IH parts) as (-> & -> & -> & ->); [simpl in Hl; lia|]. done.
Qed.

(** With the signal due in this loop after [j0] records, the loop stops
    there with the first records of the batch appended. *)
Lemma append_parts_signal k batch parts j0 j acc :
  j <= j0 -> j0 - j <= length parts -> j0 <= length batch ->
  append_parts (Some (k, Appended j0)) k batch parts j acc =
  (Some KeyboardInterrupt, acc ++ take (j0 - j) (paired (drop j batch) parts)).
Proof.
  revert j acc. induction parts as [|part parts IH]; intros j acc Hj Hp Hb.
  - simpl in Hp. assert (j = j0) as -> by lia.
    simpl. unfold fires. rewrite bool_decide_eq_true_2 by done.
    by rewrite Nat.sub_diag, app_nil_r.
  - cbn [append_parts]. unfold fires at 1.
    destruct (decide (j = j0)) as [->|Hne].
    + rewrite bool_decide_eq_true_2 by done.
      by rewrite Nat.sub_diag, app_nil_r.
    + rewrite bool_decide_eq_false_2 by congruence.
      destruct (lookup_lt_is_Some_2 batch j) as [sub E]; [lia|].
      rewrite E, IH by (simpl in Hp; lia).
      rewrite (drop_S _ _ _ E), paired_cons.
      replace (j0 - j) with (S (j0 - S j)) by lia.
      by rewrite <- app_assoc.
Qed.

Lemma append_parts_no_exn sig k batch parts j acc acc' :
  append_parts sig k batch parts j acc = (None, acc') ->
  append_parts None k batch parts j acc = (None, acc').
Proof.
  revert j acc. induction parts as [|part parts IH]; intros j acc;
    cbn [append_parts]; rewrite fires_none;
    destruct (fires sig k (Appended j)); try done.
  destruct (batch !! j); [apply IH|done].
Qed.

(** ** One batch *)

Section batch.
Context (self : translator) (target_language : str) (progress_file : string).
Context (subtitles : list subtitle) (i : nat) (st : state).

Let batch := slice subtitles i (i + batch_size).
Let combined_text := join delimiter (map text batch).

(** A batch without a signal whose translation arrives. *)
Lemma batch_step_quiet t n :
  translate_text self (calls st) combined_text target_language
    = (Return (Some t), n) ->
  let acc := translated st ++ paired batch (split delimiter t) in
  batch_step self None target_language progress_file subtitles i st =
  if length batch <? length (split delimiter t)
  then (Some IndexError, State acc (disk st) n)
  else (None, State acc (save_progress acc progress_file (disk st)) n).
Proof.
  intros Ht acc. unfold batch_step. rewrite !fires_none.
  fold batch. fold combined_text. rewrite Ht.
  rewrite append_parts_quiet, drop_0.
  by destruct (length batch <? length (split delimiter t)).
Qed.

Lemma batch_step_no_exn sig st' :
  batch_step self sig target_language progress_file subtitles i st
    = (None, st') ->
  batch_step self None target_language progress_file subtitles i st
    = (None, st').
Proof.
  unfold batch_step. rewrite !fires_none.
  destruct (fires sig _ InDelay); [done|].
  destruct (fires sig _ InCall); [done|].
  destruct (translate_text _ _ _ _) as [[[t|]|e] n]; try done.
  destruct (append_parts sig _ _ _ _ _) as [[e|] acc] eqn:E; [done|].
  apply append_parts_no_exn in E. by rewrite E.
Qed.

(** The loop body writes the progress file and nothing else. *)
Lemma batch_step_disk sig r st' p :
  batch_step self sig target_language progress_file subtitles i st
    = (r, st') ->
  p <> progress_file -> disk st' !! p = disk st !! p.
Proof.
  unfold batch_step. intros H Hp.
  destruct (fires sig _ InDelay); [by injection H as _ <-|].
  destruct (fires sig _ InCall); [by injection H as _ <-|].
  destruct (translate_text _ _ _ _) as [[[t|]|e] n];
    try by injection H as _ <-.
  destruct (append_parts sig _ _ _ _ _) as [[e|] acc];
    injection H as _ <-; [done|].
  simpl. unfold save_progress. by rewrite lookup_insert_ne.
Qed.
End batch.

(** ** The loop over the batches *)

Section run.
Context (self : translator) (target_language : str) (progress_file : string).
Context (subtitles : list subtitle).

Lemma run_batches_app sig l1 l2 st :
  run_batches self sig target_language progress_file subtitles (l1 ++ l2) st =
  match run_batches self sig target_language progress_file subtitles l1 st with
  | (Some e, st') => (Some e, st')
  | (None, st') =>
      run_batches self sig target_language progress_file subtitles l2 st'
  end.
Proof.
  revert st. induction l1 as [|i l1 IH]; intros st; simpl; [done|].
  destruct (batch_step _ _ _ _ _ _ _) as [[e|] st']; [done|]. apply IH.
Qed.

Lemma run_batches_no_exn sig starts st st' :
  run_batches self sig target_language progress_file subtitles starts st
    = (None, st') ->
  run_batches self None target_language progress_file subtitles starts st
    = (None, st').
Proof.
  revert st. induction starts as [|i starts IH]; intros st; simpl; [done|].
  destruct (batch_step self sig _ _ _ _ _) as [[e|] st1] eqn:E; [done|].
  apply batch_step_no_exn in E. rewrite E. apply IH.
Qed.

Lemma run_batches_disk sig starts st r st' p :
  run_batches self sig target_language progress_file subtitles starts st
    = (r, st') ->
  p <> progress_file -> disk st' !! p = disk st !! p.
Proof.
  revert st. induction starts as [|i starts IH]; intros st; simpl.
  - by intros [= _ <-].
  - destruct (batch_step self sig _ _ _ _ _) as [[e|] st1] eqn:E.
    + intros [= _ <-] Hp. by eapply batch_step_disk.
    + intros H Hp. rewrite (IH _ H Hp). by eapply batch_step_disk.
Qed.
End run.

(** ** Paths *)

Lemma string_length_app (a b : string) :
  String.length (a +:+ b) = String.length a + String.length b.
Proof. induction a as [|c a IH]; simpl; [done|]. by rewrite IH. Qed.

Lemma string_app_neq (a b : string) : b <> EmptyString -> a +:+ b <> a.
Proof.
  intros Hb E. apply (f_equal String.length) in E.
  rewrite string_length_app in E. destruct b; [done|]. simpl in E. lia.
Qed.

Lemma progress_path_neq output_file : progress_path output_file <> output_file.
Proof. by apply string_app_neq. Qed.

Lemma backup_path_neq output_file now : backup_path output_file now <> output_file.
Proof. by apply string_app_neq. Qed.

Lemma backup_existing_output now output_file fs :
  backup_existing now output_file fs !! output_file = fs !! output_file.
Proof.
  unfold backup_existing, create_backup, read_file.
  destruct (fs !! output_file) eqn:E; [|done]. simpl.
  rewrite lookup_insert_ne; [done|]. apply backup_path_neq.
Qed.

(** ** The batches partition the records *)

Lemma batches_concat {A} (l : list A) n :
  length l <= n * batch_size ->
  concat (map (fun i => slice l i (i + batch_size))
            (map (fun q => q * batch_size) (seq 0 n))) = l.
Proof.
  revert l. induction n as [|n IH]; intros l Hl.
  - destruct l; [done|simpl in Hl; lia].
  - rewrite <- cons_seq, <- seq_shift. cbn [map concat].
    rewrite <- (take_drop batch_size l) at 2. f_equal.
    etrans; [|apply (IH (drop batch_size l))].
    2:{ rewrite length_drop. unfold batch_size in *. lia. }
    f_equal. rewrite !map_map. apply map_ext. intros q.
    unfold slice. rewrite drop_drop. do 2 f_equal; unfold batch_size; lia.
Qed.

Lemma batch_starts_concat {A} (l : list A) :
  concat (map (fun i => slice l i (i + batch_size)) (batch_starts (length l))) = l.
Proof.
  apply batches_concat. unfold batch_size.
  pose proof (Nat.div_mod_eq (length l + 5 - 1) 5).
  pose proof (Nat.mod_upper_bound (length l + 5 - 1) 5). lia.
Qed.

(** ** The examples of the specification *)

Example parse_srt_example :
  parse_srt (unlines ["1"; "00:00:01,000 --> 00:00:02,000"; "Hello"; blank])
  = [Subtitle (lit "1") ts1 ts2 (lit "Hello")].
Proof. reflexivity. Qed.

Example serialize_example :
  serialize [Subtitle (lit "1") ts1 ts2 (lit "Hello")]
  = unlines ["1"; "00:00:01,000 --> 00:00:02,000"; "Hello"; blank].
Proof. reflexivity. Qed.

Example join_example :
  join delimiter [lit "Hello"; lit "World"]
  = lit "Hello" ++ nl :: lit "---" ++ nl :: lit "World".
Proof. reflexivity. Qed.

Example split_example :
  split delimiter (lit "Bonjour" ++ nl :: lit "---" ++ nl :: lit "Monde")
  = [lit "Bonjour"; lit "Monde"].
Proof. reflexivity. Qed.

(** A last text line that lacks its newline is no line of the pattern:
    the block is not matched. *)
Example parse_srt_unterminated_line :
  parse_srt (header (lit "1") ts1 ts2 ++ lit "Hello") = [].
Proof. reflexivity. Qed.

(** A header right at the end of the input, or followed by an empty
    line, gives a record with an empty text. *)
Example parse_srt_no_text :
  parse_srt (header (lit "1") ts1 ts2) = [Subtitle (lit "1") ts1 ts2 []]
  /\ parse_srt (header (lit "1") ts1 ts2 ++ [nl])
     = [Subtitle (lit "1") ts1 ts2 []].
Proof. split; reflexivity. Qed.

(** The pattern is not anchored at the start of a line. *)
Example parse_srt_mid_line :
  parse_srt (lit "x12" ++ nl :: lit "00:00:01,000 --> 00:00:02,000"
             ++ nl :: lit "Hello" ++ [nl])
  = [Subtitle (lit "12") ts1 ts2 (lit "Hello")].
Proof. reflexivity. Qed.

(** * The statements of the specification *)

(** ** Parser and serializer *)

(** C1: serializing the records the parser returns for an input text and
    parsing the result again gives the same records; this holds for every
    input text. *)
Theorem C1_parse_serialize_parse (content : str) :
  parse_srt (serialize (parse_srt content)) = parse_srt content.
Proof. apply parse_srt_serialize, parse_srt_canonical. Qed.





(** C6, as stated, fails: the text of the record is not the raw text with
    only the trailing whitespace removed.  The two leading spaces of
    [indented_block] are removed, and in [split_text_source] the text
    stops at the empty line. *)
Lemma C6_counterexample :
  well_formed indented_block = true
  /\ map text (parse_srt (block_source indented_block ++ [nl]))
     <> [rstrip (raw_text indented_block)]
  /\ map text (parse_srt split_text_source) = [lit "a"].
Proof. split; [reflexivity|]. split; [|reflexivity]. vm_compute. discriminate. Qed.

(** C6, amended: the text of the record of a well-formed block is the raw
    text of its lines with the whitespace removed at both ends
    ([str.strip]); the text ends at the first empty line, whatever
    follows it, or at the end of the input. *)
Theorem C6_text_is_stripped (b : src_block) (rest : str) :
  well_formed b = true ->
  map text (take 1 (parse_srt (block_source b ++ nl :: rest)))
    = [strip (raw_text b)]
  /\ map text (parse_srt (block_source b)) = [strip (raw_text b)].
Proof.
  intros H. rewrite parse_srt_block, parse_srt_last_block by done. done.
Qed.

Lemma C6_witness :
  well_formed indented_block = true
  /\ (map text (take 1 (parse_srt (block_source indented_block
                                    ++ nl :: lit "more text")))
        = [strip (raw_text indented_block)]
      /\ map text (parse_srt (block_source indented_block))
         = [strip (raw_text indented_block)]).
Proof.
  split; [reflexivity|].
  apply (C6_text_is_stripped indented_block (lit "more text")). reflexivity.
Defined.

(** ** The orchestrator on one batch *)

(** C2: when the translated text of a batch of B records splits into
    exactly B parts, the batch appends exactly B records; their index,
    start time and end time are those of the records of the batch, in
    order, and their texts are the parts, stripped, in order. *)
Theorem C2_shaped_batch (self : translator) (lang : str) (pf : string)
    (subs : list subtitle) (i : nat) (st : state) (t : str) (n : nat) :
  let batch := slice subs i (i + batch_size) in
  let parts := split delimiter t in
  translate_text self (calls st) (join delimiter (map text batch)) lang
    = (Return (Some t), n) ->
  length parts = length batch ->
  exists out,
    batch_step self None lang pf subs i st
      = (None, State (translated st ++ out)
                 (save_progress (translated st ++ out) pf (disk st)) n)
    /\ length out = length batch
    /\ map index out = map index batch
    /\ map start_time out = map start_time batch
    /\ map end_time out = map end_time batch
    /\ map text out = map strip parts.
Proof.
  intros batch parts Ht Hlen. exists (paired batch parts).
  rewrite (batch_step_quiet _ _ _ _ _ _ _ _ Ht).
  fold batch parts. rewrite <- Hlen, Nat.ltb_irrefl.
  split; [done|]. rewrite paired_length, Hlen, Nat.min_id.
  split; [done|].
  destruct (paired_fields batch parts) as (-> & -> & -> & ->); [lia|].
  by rewrite Hlen, firstn_all.
Qed.

Lemma C2_witness :
  translate_text two_parts 0
    (join delimiter (map text (slice hello_world 0 (0 + batch_size)))) french
    = (Return (Some (lit "Bonjour" ++ delimiter ++ lit "Monde")), 1)
  /\ length (split delimiter (lit "Bonjour" ++ delimiter ++ lit "Monde"))
     = length (slice hello_world 0 (0 + batch_size))
  /\ exists out,
      batch_step two_parts None french (progress_path out_srt) hello_world 0
        (State [] store 0)
      = (None, State ([] ++ out)
                 (save_progress ([] ++ out) (progress_path out_srt) store) 1)
      /\ length out = length (slice hello_world 0 (0 + batch_size))
      /\ map index out = map index (slice hello_world 0 (0 + batch_size))
      /\ map start_time out
         = map start_time (slice hello_world 0 (0 + batch_size))
      /\ map end_time out = map end_time (slice hello_world 0 (0 + batch_size))
      /\ map text out
         = map strip (split delimiter (lit "Bonjour" ++ delimiter ++ lit "Monde")).
Proof.
  split; [reflexivity|]. split; [reflexivity|].
  apply (C2_shaped_batch two_parts french (progress_path out_srt) hello_world
           0 (State [] store 0)
           (lit "Bonjour" ++ delimiter ++ lit "Monde") 1); reflexivity.
Defined.

(** C10: when the translated text of a batch splits into P parts, P
    smaller than the number B of records of the batch, no error is
    raised: the batch appends exactly P records, the first P records of
    the batch with the parts as texts, the progress is saved and the loop
    goes on with the next batch; the other records of the batch are
    missing from the accumulated records. *)
Theorem C10_fewer_parts_dropped (self : translator) (lang : str) (pf : string)
    (subs : list subtitle) (i : nat) (st : state) (t : str) (n : nat) :
  let batch := slice subs i (i + batch_size) in
  let parts := split delimiter t in
  translate_text self (calls st) (join delimiter (map text batch)) lang
    = (Return (Some t), n) ->
  length parts < length batch ->
  exists out st',
    batch_step self None lang pf subs i st = (None, st')
    /\ translated st' = translated st ++ out
    /\ disk st' = save_progress (translated st ++ out) pf (disk st)
    /\ length out = length parts
    /\ map index out = map index (take (length parts) batch)
    /\ map start_time out = map start_time (take (length parts) batch)
    /\ map end_time out = map end_time (take (length parts) batch)
    /\ map text out = map strip parts
    /\ forall starts,
         run_batches self None lang pf subs (i :: starts) st
         = run_batches self None lang pf subs starts st'.
Proof.
  intros batch parts Ht Hlen. exists (paired batch parts). eexists.
  pose proof (batch_step_quiet _ lang pf _ _ _ _ _ Ht) as E.
  fold batch parts in E. cbv zeta in E.
  assert ((length batch <? length parts) = false) as Hlt
    by (apply Nat.ltb_ge; lia).
  rewrite Hlt in E. split; [exact E|]. simpl.
  split; [done|]. split; [done|].
  rewrite paired_length. split; [lia|].
  destruct (paired_fields batch parts) as (-> & -> & -> & ->); [lia|].
  repeat split. intros starts. simpl. by rewrite E.
Qed.

Lemma C10_witness :
  translate_text one_part 0
    (join delimiter (map text (slice hello_world 0 (0 + batch_size)))) french
    = (Return (Some (lit "Bonjour")), 1)
  /\ length (split delimiter (lit "Bonjour"))
     < length (slice hello_world 0 (0 + batch_size))
  /\ exists out st',
      batch_step one_part None french (progress_path out_srt) hello_world 0
        (State [] store 0) = (None, st')
      /\ translated st' = [] ++ out
      /\ disk st' = save_progress ([] ++ out) (progress_path out_srt) store
      /\ length out = length (split delimiter (lit "Bonjour"))
      /\ map index out
         = map index (take (length (split delimiter (lit "Bonjour")))
                        (slice hello_world 0 (0 + batch_size)))
      /\ map start_time out
         = map start_time (take (length (split delimiter (lit "Bonjour")))
                             (slice hello_world 0 (0 + batch_size)))
      /\ map end_time out
         = map end_time (take (length (split delimiter (lit "Bonjour")))
                           (slice hello_world 0 (0 + batch_size)))
      /\ map text out = map strip (split delimiter (lit "Bonjour"))
      /\ forall starts,
           run_batches one_part None french (progress_path out_srt)
             hello_world (0 :: starts) (State [] store 0)
           = run_batches one_part None french (progress_path out_srt)
               hello_world starts st'.
Proof.
  split; [reflexivity|]. split; [vm_compute; lia|].
  apply (C10_fewer_parts_dropped one_part french (progress_path out_srt)
           hello_world 0 (State [] store 0) (lit "Bonjour") 1);
    [reflexivity|vm_compute; lia].
Defined.

(** C4, as stated, fails: with fewer parts than records nothing is
    raised.  The two records of [hello_world] and the single part
    [Bonjour]: the batch ends without an exception and the run
    completes. *)
Lemma C4_counterexample :
  translate_text one_part 0
    (join delimiter (map text (slice hello_world 0 (0 + batch_size)))) french
    = (Return (Some (lit "Bonjour")), 1)
  /\ length (split delimiter (lit "Bonjour")) = 1
  /\ length (slice hello_world 0 (0 + batch_size)) = 2
  /\ fst (batch_step one_part None french (progress_path out_srt) hello_world 0
            (State [] store 0)) = None
  /\ fst (translate_subtitles one_part None clock store in_srt out_srt french)
     = Completed.
Proof. by vm_compute. Qed.

(** C4, amended: when the translated text of a batch splits into more
    parts than the batch has records, the loop over the parts raises
    [IndexError] once a record has been appended for every record of the
    batch; the run saves the accumulated records to the progress file and
    ends with that exception. *)
Theorem C4_more_parts_abort (self : translator) (now : string) (fs : files)
    (input_file output_file : string) (lang content : str)
    (k i : nat) (st1 : state) (t : str) (n : nat) :
  let fs1 := backup_existing now output_file fs in
  let subs := parse_srt content in
  let pf := progress_path output_file in
  let batch := slice subs i (i + batch_size) in
  let acc := translated st1 ++ paired batch (split delimiter t) in
  read_file fs1 input_file = Some content ->
  batch_starts (length subs) !! k = Some i ->
  run_batches self None lang pf subs (take k (batch_starts (length subs)))
    (State [] fs1 0) = (None, st1) ->
  translate_text self (calls st1) (join delimiter (map text batch)) lang
    = (Return (Some t), n) ->
  length batch < length (split delimiter t) ->
  batch_step self None lang pf subs i st1
    = (Some IndexError, State acc (disk st1) n)
  /\ length (paired batch (split delimiter t)) = length batch
  /\ translate_subtitles self None now fs input_file output_file lang
     = (Aborted IndexError, save_progress acc pf (disk st1)).
Proof.
  intros fs1 subs pf batch acc Hread Hk Hrun Ht Hlen.
  pose proof (batch_step_quiet _ lang pf _ _ _ _ _ Ht) as E.
  fold batch in E. cbv zeta in E. fold acc in E.
  apply Nat.ltb_lt in Hlen as Hlt. rewrite Hlt in E.
  split; [exact E|]. rewrite paired_length. split; [lia|].
  unfold translate_subtitles. fold fs1. rewrite Hread.
  fold subs pf.
  rewrite <- (take_drop_middle _ _ _ Hk), run_batches_app.
  rewrite Hrun. simpl. by rewrite E.
Qed.

Lemma C4_witness :
  read_file (backup_existing clock out_srt store) in_srt
    = Some (serialize hello_world)
  /\ batch_starts (length (parse_srt (serialize hello_world))) !! 0 = Some 0
  /\ run_batches three_parts None french (progress_path out_srt)
       (parse_srt (serialize hello_world))
       (take 0 (batch_starts (length (parse_srt (serialize hello_world)))))
       (State [] (backup_existing clock out_srt store) 0)
     = (None, State [] store 0)
  /\ translate_text three_parts 0
       (join delimiter
          (map text (slice (parse_srt (serialize hello_world)) 0
                       (0 + batch_size)))) french
     = (Return (Some (lit "un" ++ delimiter ++ lit "deux" ++ delimiter
                        ++ lit "trois")), 1)
  /\ length (slice (parse_srt (serialize hello_world)) 0 (0 + batch_size))
     < length (split delimiter (lit "un" ++ delimiter ++ lit "deux"
                                  ++ delimiter ++ lit "trois"))
  /\ fst (translate_subtitles three_parts None clock store in_srt out_srt
            french) = Aborted IndexError.
Proof.
  split; [reflexivity|]. split; [reflexivity|]. split; [reflexivity|].
  split; [reflexivity|]. split; [vm_compute; lia|].
  destruct (C4_more_parts_abort three_parts clock store in_srt out_srt french
              (serialize hello_world) 0 0 (State [] store 0)
              (lit "un" ++ delimiter ++ lit "deux" ++ delimiter ++ lit "trois")
              1) as (_ & _ & E);
    [reflexivity|reflexivity|reflexivity|reflexivity|vm_compute; lia|].
  rewrite E. reflexivity.
Defined.

(** C9: joining the texts of a batch with the delimiter and splitting the
    result is not a round trip.  The parser returns a record whose text
    has a line [---]; the client falls back to the combined text of the
    batch, unchanged; it splits into two parts for one record, and the
    stripped parts are not the texts of the batch. *)
Theorem C9_join_split_not_inverse :
  exists (self : translator) (content : str),
    let batch := parse_srt content in
    let combined_text := join delimiter (map text batch) in
    (exists r, In r batch /\ In (lit "---") (split [nl] (text r)))
    /\ fst (translate_text self 0 combined_text french)
       = Return (Some combined_text)
    /\ length batch = 1
    /\ length (split delimiter combined_text) = 2
    /\ map strip (split delimiter combined_text) <> map text batch.
Proof.
  exists no_answer, dashed_source. cbv zeta.
  split.
  { eexists. split; [left; reflexivity|]. vm_compute. right. by left. }
  split; [reflexivity|]. split; [reflexivity|]. split; [reflexivity|].
  vm_compute. discriminate.
Qed.

(** ** The translation client *)

(** When no failed attempt has [None] for the response of its exception,
    the client falls back to the text it was given, after
    [max_retries] requests. *)
Lemma attempts_fallback (self : translator) (a m calls : nat) (request t : str) :
  a + S m = max_retries self ->
  (forall c, exists e, post self c request = Failed e /\ e <> IsNone) ->
  attempts self (seq a (S m)) calls request t
  = (Return (Some t), calls + S m).
Proof.
  intros Ha Hfail. revert a calls Ha.
  induction m as [|m IH]; intros a calls Ha.
  - simpl. destruct (Hfail calls) as (e & -> & He).
    assert ((a <? max_retries self - 1) = false) as ->
      by (apply Nat.ltb_ge; lia).
    replace (calls + 1) with (S calls) by lia.
    by destruct e.
  - change (seq a (S (S m))) with (a :: seq (S a) (S m)).
    cbn [attempts]. destruct (Hfail calls) as (e & -> & He).
    assert ((a <? max_retries self - 1) = true) as ->
      by (apply Nat.ltb_lt; lia).
    rewrite IH by lia.
    replace (S calls + S m) with (calls + S (S m)) by lia.
    by destruct e.
Qed.

Lemma translate_text_fallback (self : translator) (calls : nat) (t lang : str) :
  0 < max_retries self ->
  (forall c, exists e,
     post self c (prompt lang t) = Failed e /\ e <> IsNone) ->
  translate_text self calls t lang
  = (Return (Some t), calls + max_retries self).
Proof.
  intros Hm Hfail. unfold translate_text.
  destruct (max_retries self) as [|m] eqn:E; [lia|].
  apply attempts_fallback; [by rewrite E|done].
Qed.

(** C3: the code at the failing input.  Every attempt fails and the
    exception has [None] for its response: the handler of the first
    attempt raises [AttributeError], which leaves [translate_text]; the
    text is not returned and no further attempt is made. *)
Theorem C3_network_failure_raises (t lang : str) :
  translate_text network_down 0 t lang = (Raise AttributeError, 1).
Proof. reflexivity. Qed.

(** ** Interrupted runs *)

Lemma batch_starts_lookup total q i :
  batch_starts total !! q = Some i -> i = q * batch_size.
Proof.
  unfold batch_starts. intros H.
  change (((fun q => q * batch_size) <$>
             seq 0 ((total + batch_size - 1) / batch_size)) !! q = Some i) in H.
  rewrite list_lookup_fmap in H.
  destruct (seq 0 _ !! q) as [q'|] eqn:E; [|done].
  apply lookup_seq in E as [-> _]. by injection H as <-.
Qed.

Lemma batch_starts_lookup_lt total q :
  q < length (batch_starts total) ->
  batch_starts total !! q = Some (q * batch_size).
Proof.
  intros Hq. destruct (lookup_lt_is_Some_2 _ _ Hq) as [i Hi].
  by rewrite Hi, (batch_starts_lookup _ _ _ Hi).
Qed.

Lemma batch_number q : q * batch_size / batch_size + 1 = S q.
Proof. unfold batch_size. rewrite Nat.div_mul by done. lia. Qed.

Lemma batch_step_signal (self : translator) (lang : str) (pf : string)
    (subs : list subtitle) (q : nat) (ph : phase) (st : state) :
  let i := q * batch_size in
  let batch := slice subs i (i + batch_size) in
  deliverable self lang ph batch (calls st) ->
  exists st',
    batch_step self (Some (S q, ph)) lang pf subs i st
      = (Some KeyboardInterrupt, st')
    /\ translated st'
       = translated st
         ++ appended_before ph batch (parts_of self lang batch (calls st))
    /\ disk st' = disk st.
Proof.
  intros i batch Hd. unfold batch_step. fold i. fold batch.
  unfold i at 1 2 3. rewrite batch_number. unfold fires.
  destruct ph as [| |j].
  - rewrite bool_decide_eq_true_2 by done. eexists. split; [done|].
    simpl. by rewrite app_nil_r.
  - rewrite bool_decide_eq_false_2 by done.
    rewrite bool_decide_eq_true_2 by done. eexists. split; [done|].
    simpl. by rewrite app_nil_r.
  - rewrite !bool_decide_eq_false_2 by done.
    destruct Hd as (t & n & Ht & Hj & Hb).
    unfold parts_of. rewrite Ht.
    rewrite append_parts_signal by lia.
    eexists. split; [done|]. simpl. by rewrite Nat.sub_0_r, drop_0.
Qed.

(** C7, as stated, fails: the progress file can hold records of the
    interrupted batch.  Eleven records, three batches, the signal
    delivered in the second batch after its first record has been
    appended: the run stops without error, and the progress file holds
    six records, the five of the first batch and one of the second. *)
Lemma C7_counterexample :
  let run := translate_subtitles echo (Some (2, Appended 1)) clock store11
               in_srt out_srt french in
  length (batch_starts (length (parse_srt (serialize eleven)))) = 3
  /\ translated after_first_batch = take 5 eleven
  /\ fst run = Interrupted
  /\ snd run !! progress_path out_srt = Some (serialize (take 6 eleven))
  /\ snd run !! progress_path out_srt
     <> Some (serialize (translated after_first_batch)).
Proof.
  cbv zeta. split; [reflexivity|]. split; [reflexivity|].
  split; [reflexivity|]. split; [reflexivity|].
  vm_compute. discriminate.
Qed.

(** C7, amended: when the signal is delivered during the processing of
    batch [q + 1], the batches before it having completed, the run stops
    without error, the output file is not written, and the progress file
    holds the records accumulated at that moment: the translated records
    of the completed batches, followed by the records of the interrupted
    batch that were already appended, none of them when the signal
    arrives during the delay or during the call of the client. *)
Theorem C7_interrupt_saves_accumulated (self : translator) (now : string)
    (fs : files) (input_file output_file : string) (lang content : str)
    (q : nat) (ph : phase) (st1 : state) :
  let fs1 := backup_existing now output_file fs in
  let subs := parse_srt content in
  let pf := progress_path output_file in
  let batch := slice subs (q * batch_size) (q * batch_size + batch_size) in
  read_file fs1 input_file = Some content ->
  q < length (batch_starts (length subs)) ->
  run_batches self (Some (S q, ph)) lang pf subs
    (take q (batch_starts (length subs))) (State [] fs1 0) = (None, st1) ->
  deliverable self lang ph batch (calls st1) ->
  exists fs',
    translate_subtitles self (Some (S q, ph)) now fs input_file output_file lang
      = (Interrupted, fs')
    /\ fs' !! pf
       = Some (serialize
                 (translated st1
                  ++ appended_before ph batch
                       (parts_of self lang batch (calls st1))))
    /\ (ph = InDelay \/ ph = InCall ->
        fs' !! pf = Some (serialize (translated st1)))
    /\ fs' !! output_file = fs !! output_file.
Proof.
  intros fs1 subs pf batch Hread Hq Hrun Hd.
  destruct (batch_step_signal self lang pf subs q ph st1 Hd)
    as (st' & Hstep & Hacc & Hdisk).
  fold batch in Hacc.
  unfold translate_subtitles. fold fs1. rewrite Hread. fold subs pf.
  rewrite <- (take_drop_middle _ _ _ (batch_starts_lookup_lt _ _ Hq)).
  rewrite run_batches_app, Hrun. cbn [run_batches]. rewrite Hstep.
  eexists. split; [reflexivity|]. unfold save_progress.
  rewrite lookup_insert_eq, Hacc.
  split; [done|]. split.
  - intros [-> | ->]; simpl; by rewrite app_nil_r.
  - rewrite lookup_insert_ne by apply progress_path_neq.
    rewrite Hdisk.
    rewrite (run_batches_disk _ _ _ _ _ _ _ _ _ output_file Hrun)
      by (apply not_eq_sym, progress_path_neq).
    apply backup_existing_output.
Qed.

Lemma C7_witness :
  read_file (backup_existing clock out_srt store11) in_srt
    = Some (serialize eleven)
  /\ 1 < length (batch_starts (length (parse_srt (serialize eleven))))
  /\ run_batches echo (Some (2, Appended 1)) french (progress_path out_srt)
       (parse_srt (serialize eleven))
       (take 1 (batch_starts (length (parse_srt (serialize eleven)))))
       (State [] (backup_existing clock out_srt store11) 0)
     = (None, after_first_batch)
  /\ deliverable echo french (Appended 1)
       (slice (parse_srt (serialize eleven)) (1 * batch_size)
          (1 * batch_size + batch_size))
       (calls after_first_batch)
  /\ fst (translate_subtitles echo (Some (2, Appended 1)) clock store11
            in_srt out_srt french) = Interrupted.
Proof.
  assert (H1 : read_file (backup_existing clock out_srt store11) in_srt
               = Some (serialize eleven)) by reflexivity.
  assert (H2 : 1 < length (batch_starts (length (parse_srt (serialize eleven)))))
    by (vm_compute; lia).
  assert (H3 : run_batches echo (Some (2, Appended 1)) french
                 (progress_path out_srt) (parse_srt (serialize eleven))
                 (take 1 (batch_starts (length (parse_srt (serialize eleven)))))
                 (State [] (backup_existing clock out_srt store11) 0)
               = (None, after_first_batch)) by reflexivity.
  assert (H4 : deliverable echo french (Appended 1)
                 (slice (parse_srt (serialize eleven)) (1 * batch_size)
                    (1 * batch_size + batch_size))
                 (calls after_first_batch)).
  { eexists _, _. split; [reflexivity|]. vm_compute. lia. }
  do 4 (split; [assumption|]).
  destruct (C7_interrupt_saves_accumulated echo clock store11 in_srt out_srt
              french (serialize eleven) 1 (Appended 1) after_first_batch
              H1 H2 H3 H4) as (fs' & E & _).
  rewrite E. reflexivity.
Defined.

(** ** Completed runs *)

Lemma paired_key batch parts :
  length parts = length batch -> map key (paired batch parts) = map key batch.
Proof.
  revert parts. induction batch as [|sub batch IH]; intros [|p parts] Hl;
    try done.
  rewrite paired_cons. cbn [map]. rewrite IH by (simpl in Hl; lia). done.
Qed.

Lemma run_batches_shaped (self : translator) (lang : str) (pf : string)
    (subs : list subtitle) (starts : list nat) (st : state) :
  shaped self lang subs starts (calls st) ->
  exists st',
    run_batches self None lang pf subs starts st = (None, st')
    /\ map key (translated st')
       = map key (translated st)
         ++ map key (concat (map (fun i => slice subs i (i + batch_size)) starts)).
Proof.
  revert st. induction starts as [|i starts IH]; intros st Hs.
  - exists st. simpl. by rewrite app_nil_r.
  - cbn [shaped] in Hs. cbv zeta in Hs.
    destruct (translate_text _ _ _ _) as [[[t|]|e] n] eqn:Ht; try done.
    destruct Hs as [Hlen Hs]. cbn [run_batches].
    rewrite (batch_step_quiet _ _ _ _ _ _ _ _ Ht). cbv zeta.
    rewrite Hlen, Nat.ltb_irrefl.
    destruct (IH (State (translated st
                         ++ paired (slice subs i (i + batch_size))
                              (split delimiter t))
                    (save_progress
                       (translated st
                        ++ paired (slice subs i (i + batch_size))
                             (split delimiter t)) pf (disk st)) n) Hs)
      as (st' & -> & Hkey).
    exists st'. split; [done|]. rewrite Hkey. simpl.
    rewrite !map_app, paired_key by done. by rewrite <- app_assoc.
Qed.

Lemma map_key_fields out subs :
  map key out = map key subs ->
  length out = length subs
  /\ map index out = map index subs
  /\ map start_time out = map start_time subs
  /\ map end_time out = map end_time subs.
Proof.
  intros H. split; [by rewrite <- (length_map key out), H, length_map|].
  pose proof (f_equal (map (fun k => fst (fst k))) H) as H1.
  pose proof (f_equal (map (fun k => snd (fst k))) H) as H2.
  pose proof (f_equal (map snd) H) as H3.
  rewrite !map_map in H1, H2, H3. done.
Qed.

(** C8, as stated, fails: a run can complete without an exception and
    write fewer records than the input has.  The two records of
    [hello_world] and a translation of one part: the run completes, the
    progress file is gone and the output file holds one record. *)
Lemma C8_counterexample :
  let run := translate_subtitles one_part None clock store in_srt out_srt
               french in
  read_file store in_srt = Some (serialize hello_world)
  /\ length (parse_srt (serialize hello_world)) = 2
  /\ fst run = Completed
  /\ snd run !! progress_path out_srt = None
  /\ snd run !! out_srt
     = Some (serialize [Subtitle (lit "1") ts1 ts2 (lit "Bonjour")])
  /\ length (parse_srt (serialize [Subtitle (lit "1") ts1 ts2 (lit "Bonjour")]))
     = 1.
Proof. cbv zeta. repeat split; reflexivity. Qed.

(** C8, amended: after a run that completes all batches without an
    exception, each batch having received a translation that splits into
    as many parts as the batch has records, the progress file does not
    exist and the output file holds the serialization of exactly N
    records, N the number of records of the input, with the indexes and
    time ranges of the input records in their order. *)
Theorem C8_completed_run (self : translator) (sig : signal) (now : string)
    (fs fs' : files) (input_file output_file : string) (lang content : str) :
  let subs := parse_srt content in
  read_file (backup_existing now output_file fs) input_file = Some content ->
  translate_subtitles self sig now fs input_file output_file lang
    = (Completed, fs') ->
  shaped self lang subs (batch_starts (length subs)) 0 ->
  fs' !! progress_path output_file = None
  /\ exists out,
       fs' !! output_file = Some (serialize out)
       /\ length out = length subs
       /\ map index out = map index subs
       /\ map start_time out = map start_time subs
       /\ map end_time out = map end_time subs.
Proof.
  intros subs Hread Hrun Hs.
  unfold translate_subtitles in Hrun. rewrite Hread in Hrun. fold subs in Hrun.
  destruct (run_batches self sig _ _ _ _ _) as [[e|] st] eqn:E.
  { by destruct e. }
  injection Hrun as <-.
  apply run_batches_no_exn in E.
  destruct (run_batches_shaped self lang (progress_path output_file) subs
              (batch_starts (length subs))
              (State [] (backup_existing now output_file fs) 0) Hs)
    as (st' & E' & Hkey).
  rewrite E in E'. injection E' as <-.
  rewrite batch_starts_concat in Hkey. simpl in Hkey.
  split.
  - destruct (save_progress _ _ _ !! progress_path output_file) eqn:Hp;
      [|done].
    apply lookup_delete_eq.
  - exists (translated st). split; [|by apply map_key_fields].
    assert (save_progress (translated st) output_file (disk st) !! output_file
            = Some (serialize (translated st))) as Hout
      by apply lookup_insert_eq.
    destruct (save_progress _ _ _ !! progress_path output_file) eqn:Hp;
      [|done].
    rewrite lookup_delete_ne by apply progress_path_neq. done.
Qed.

Lemma C8_witness :
  read_file (backup_existing clock out_srt store) in_srt
    = Some (serialize hello_world)
  /\ translate_subtitles two_parts None clock store in_srt out_srt french
     = (Completed,
        snd (translate_subtitles two_parts None clock store in_srt out_srt
               french))
  /\ shaped two_parts french (parse_srt (serialize hello_world))
       (batch_starts (length (parse_srt (serialize hello_world)))) 0
  /\ snd (translate_subtitles two_parts None clock store in_srt out_srt french)
       !! progress_path out_srt = None.
Proof.
  assert (H1 : read_file (backup_existing clock out_srt store) in_srt
               = Some (serialize hello_world)) by reflexivity.
  assert (H2 : translate_subtitles two_parts None clock store in_srt out_srt
                 french
               = (Completed,
                  snd (translate_subtitles two_parts None clock store in_srt
                         out_srt french))) by reflexivity.
  assert (H3 : shaped two_parts french (parse_srt (serialize hello_world))
                 (batch_starts (length (parse_srt (serialize hello_world)))) 0)
    by (vm_compute; split; [reflexivity|exact I]).
  do 3 (split; [assumption|]).
  exact (proj1 (C8_completed_run two_parts None clock store _ in_srt out_srt
                  french (serialize hello_world) H1 H2 H3)).
Defined.

(** * Further properties of the code *)

(** ** [parse_srt] and [save_progress] *)

(** X1: every record [parse_srt] returns has an index made of one or more
    digits, two time stamps of the form [HH:MM:SS,mmm], and a text that
    has no whitespace at either end and no empty line. *)
Theorem X1_parse_srt_records_canonical (content : str) :
  Forall (fun r =>
            canonical r /\ strip (text r) = text r
            /\ length (start_time r) = 12 /\ length (end_time r) = 12)
    (parse_srt content).
Proof.
  eapply Forall_impl; [apply parse_srt_canonical|].
  intros r Hr. split; [done|].
  destruct Hr as (_ & _ & Hst & Hen & Hl & Hr & _).
  split; [|split; by apply is_timestamp_length].
  unfold strip. by rewrite Hl.
Qed.

Lemma parse_blocks_serialize rs rest :
  Forall canonical rs ->
  map block_subtitle (parse_blocks (serialize rs ++ rest))
  = rs ++ map block_subtitle (parse_blocks rest).
Proof.
  unfold serialize. induction 1 as [|r rs Hr _ IH]; [done|].
  cbn [map concat]. rewrite <- app_assoc, parse_blocks_render by done.
  by rewrite IH.
Qed.

(** X2: a text that starts with the serialization of canonical records
    parses to these records, followed by the records of what comes after
    them: on canonical records parsing undoes [save_progress]'s format. *)
Theorem X2_parse_after_serialize (rs : list subtitle) (rest : str) :
  Forall canonical rs ->
  parse_srt (serialize rs ++ rest) = rs ++ parse_srt rest.
Proof.
  intros H. rewrite !parse_srt_blocks. by apply parse_blocks_serialize.
Qed.

Lemma hello_world_canonical : Forall canonical hello_world.
Proof. repeat constructor; done. Qed.

Lemma X2_witness :
  Forall canonical hello_world
  /\ parse_srt (serialize hello_world ++ lit "no more blocks")
     = hello_world ++ parse_srt (lit "no more blocks").
Proof.
  split; [exact hello_world_canonical|].
  apply (X2_parse_after_serialize hello_world (lit "no more blocks")).
  exact hello_world_canonical.
Defined.

(** X3: characters that are not digits cannot start a block: a text
    without any digit gives no record, and such a text in front of an
    input does not change the records of the input. *)
Theorem X3_no_digit_no_record (junk s : str) :
  forallb (fun c => negb (is_digit c)) junk = true ->
  parse_srt junk = [] /\ parse_srt (junk ++ s) = parse_srt s.
Proof.
  intros H. split; [|by apply parse_srt_skip].
  rewrite <- (app_nil_r junk). by rewrite parse_srt_skip.
Qed.

Lemma X3_witness :
  forallb (fun c => negb (is_digit c)) (lit "WEBVTT" ++ [nl; nl]) = true
  /\ (parse_srt (lit "WEBVTT" ++ [nl; nl]) = []
      /\ parse_srt ((lit "WEBVTT" ++ [nl; nl]) ++ serialize hello_world)
         = parse_srt (serialize hello_world)).
Proof.
  split; [reflexivity|].
  apply (X3_no_digit_no_record (lit "WEBVTT" ++ [nl; nl])
           (serialize hello_world)).
  reflexivity.
Defined.

Lemma read_block_consumes s b rest :
  read_block s = Some (b, rest) -> length rest + 32 <= length s.
Proof.
  unfold read_block. pose proof (span_app is_digit s) as Happ.
  destruct (span is_digit s) as [[|d ds] [|c s1]]; try done.
  case_match eqn:Hg; [|done].
  destruct (read_body true (drop 30 s1)) as [[body r]|] eqn:E; [|done].
  simpl. intros [= _ <-]. apply read_body_shorter in E.
  rewrite length_drop in E.
  repeat (apply andb_true_iff in Hg as [Hg ?]).
  assert (30 <= length s1) as Hlen.
  { destruct (drop 29 s1) as [|x t] eqn:Hd; [done|].
    apply (f_equal length) in Hd. rewrite length_drop in Hd.
    simpl in Hd. lia. }
  rewrite <- Happ. simpl. rewrite length_app. simpl. lia.
Qed.

Lemma scan_length fuel s : 32 * length (scan fuel s) <= length s.
Proof.
  revert s. induction fuel as [|fuel IH]; intros s; simpl; [lia|].
  destruct (read_block s) as [[b rest]|] eqn:E.
  - apply read_block_consumes in E. specialize (IH rest). simpl. lia.
  - destruct s as [|c s]; simpl; [lia|]. specialize (IH s). lia.
Qed.

(** X4: a match takes at least 32 characters of the input (a digit, a
    newline, the 29 characters of the time range, a newline), so the
    parser never returns more records than a 32nd of the length of the
    input. *)
Theorem X4_parse_srt_length (content : str) :
  32 * length (parse_srt content) <= length content.
Proof.
  rewrite parse_srt_blocks, length_map. apply scan_length.
Qed.

(** X5: the records parsed from a text that was read from a file, saved
    with [save_progress] and read back from that file, parse to the same
    records: the file holds [serialize] of the records, unchanged by the
    newline translation of the reading. *)
Theorem X5_saved_records_read_back (raw : str) (path : string) (fs : files) :
  let content := universal_newlines raw in
  let fs' := save_progress (parse_srt content) path fs in
  read_file fs' path = Some (serialize (parse_srt content))
  /\ (parse_srt <$> read_file fs' path) = Some (parse_srt content).
Proof.
  intros content fs'. apply save_progress_read_back.
  apply universal_newlines_is_no_cr.
Qed.

(** ** [translate_text] *)

Lemma attempts_retry (self : translator) (k a m calls : nat)
    (request text t : str) :
  a + m = max_retries self -> k < m ->
  (forall j, j < k ->
     exists e, post self (calls + j) request = Failed e /\ e <> IsNone) ->
  post self (calls + k) request = Replied t ->
  attempts self (seq a m) calls request text = (Return (Some t), calls + S k).
Proof.
  revert a m calls. induction k as [|k IH]; intros a m calls Ha Hk Hfail Hok.
  - destruct m as [|m]; [lia|]. cbn [seq attempts].
    rewrite Nat.add_0_r in Hok. rewrite Hok. by rewrite Nat.add_1_r.
  - destruct m as [|m]; [lia|]. cbn [seq attempts].
    destruct (Hfail 0) as (e & He & Hne); [lia|].
    rewrite Nat.add_0_r in He. rewrite He.
    assert ((a <? max_retries self - 1) = true) as ->
      by (apply Nat.ltb_lt; lia).
    assert (report e = Return tt) as -> by (by destruct e).
    rewrite (IH (S a) m (S calls)); try lia.
    + f_equal. lia.
    + intros j Hj. destruct (Hfail (S j)) as (e' & He' & Hne'); [lia|].
      exists e'. split; [|done]. by rewrite <- He', Nat.add_succ_r.
    + by rewrite <- Hok, Nat.add_succ_r.
Qed.

Lemma attempts_exhausted (self : translator) (a m calls : nat)
    (request text : str) :
  a + S m = max_retries self ->
  (forall j, j < S m ->
     exists e, post self (calls + j) request = Failed e /\ e <> IsNone) ->
  attempts self (seq a (S m)) calls request text
  = (Return (Some text), calls + S m).
Proof.
  revert a calls. induction m as [|m IH]; intros a calls Ha Hfail.
  - cbn [seq attempts]. destruct (Hfail 0) as (e & He & Hne); [lia|].
    rewrite Nat.add_0_r in He. rewrite He.
    assert ((a <? max_retries self - 1) = false) as ->
      by (apply Nat.ltb_ge; lia).
    assert (report e = Return tt) as -> by (by destruct e).
    by rewrite Nat.add_1_r.
  - change (seq a (S (S m))) with (a :: seq (S a) (S m)). cbn [attempts].
    destruct (Hfail 0) as (e & He & Hne); [lia|].
    rewrite Nat.add_0_r in He. rewrite He.
    assert ((a <? max_retries self - 1) = true) as ->
      by (apply Nat.ltb_lt; lia).
    assert (report e = Return tt) as -> by (by destruct e).
    rewrite (IH (S a) (S calls)); try lia.
    + f_equal. lia.
    + intros j Hj. destruct (Hfail (S j)) as (e' & He' & Hne'); [lia|].
      exists e'. split; [|done]. by rewrite <- He', Nat.add_succ_r.
Qed.

(** X6: when the first [k] attempts fail, [k] below [max_retries], with
    exceptions whose response is not [None], and the next request is
    answered, [translate_text] returns the answer, after exactly [k + 1]
    requests: it retries, and stops at the first answer. *)
Theorem X6_translate_text_retries (self : translator) (calls k : nat)
    (text lang t : str) :
  k < max_retries self ->
  (forall j, j < k ->
     exists e,
       post self (calls + j) (prompt lang text) = Failed e /\ e <> IsNone) ->
  post self (calls + k) (prompt lang text) = Replied t ->
  translate_text self calls text lang = (Return (Some t), calls + S k).
Proof.
  intros Hk Hfail Hok. unfold translate_text.
  by apply (attempts_retry self k).
Qed.

Lemma X6_witness :
  2 < max_retries flaky
  /\ (forall j, j < 2 ->
        exists e,
          post flaky (0 + j) (prompt french (lit "Hello")) = Failed e
          /\ e <> IsNone)
  /\ post flaky (0 + 2) (prompt french (lit "Hello")) = Replied (lit "ok")
  /\ translate_text flaky 0 (lit "Hello") french
     = (Return (Some (lit "ok")), 0 + 3).
Proof.
  assert (H1 : 2 < max_retries flaky) by (vm_compute; lia).
  assert (H2 : forall j, j < 2 ->
                 exists e,
                   post flaky (0 + j) (prompt french (lit "Hello"))
                   = Failed e /\ e <> IsNone).
  { intros j Hj. exists NoAttr. split; [|discriminate].
    destruct j as [|[|j]]; [reflexivity|reflexivity|lia]. }
  assert (H3 : post flaky (0 + 2) (prompt french (lit "Hello"))
               = Replied (lit "ok")) by reflexivity.
  do 3 (split; [assumption|]).
  exact (X6_translate_text_retries flaky 0 2 (lit "Hello") french (lit "ok")
           H1 H2 H3).
Defined.

(** X7: when all [max_retries] attempts fail with exceptions whose
    response is not [None], [translate_text] returns the text it was
    given, unchanged, after exactly [max_retries] requests. *)
Theorem X7_translate_text_falls_back (self : translator) (calls : nat)
    (text lang : str) :
  0 < max_retries self ->
  (forall j, j < max_retries self ->
     exists e,
       post self (calls + j) (prompt lang text) = Failed e /\ e <> IsNone) ->
  translate_text self calls text lang
  = (Return (Some text), calls + max_retries self).
Proof.
  intros Hm Hfail. unfold translate_text.
  destruct (max_retries self) as [|m] eqn:E; [lia|].
  apply attempts_exhausted; [by rewrite E|done].
Qed.

Lemma X7_witness :
  0 < max_retries no_answer
  /\ (forall j, j < max_retries no_answer ->
        exists e,
          post no_answer (0 + j) (prompt french (lit "Hello")) = Failed e
          /\ e <> IsNone)
  /\ translate_text no_answer 0 (lit "Hello") french
     = (Return (Some (lit "Hello")), 0 + max_retries no_answer).
Proof.
  assert (H1 : 0 < max_retries no_answer) by (vm_compute; lia).
  assert (H2 : forall j, j < max_retries no_answer ->
                 exists e,
                   post no_answer (0 + j) (prompt french (lit "Hello"))
                   = Failed e /\ e <> IsNone).
  { intros j _. exists NoAttr. split; [reflexivity|discriminate]. }
  do 2 (split; [assumption|]).
  exact (X7_translate_text_falls_back no_answer 0 (lit "Hello") french H1 H2).
Defined.

Lemma attempts_calls (self : translator) (todo : list nat) (calls : nat)
    (request text : str) :
  calls + min 1 (length todo) <= snd (attempts self todo calls request text)
  /\ snd (attempts self todo calls request text) <= calls + length todo.
Proof.
  revert calls. induction todo as [|a todo IH]; intros calls; simpl; [lia|].
  destruct (post self calls request) as [t|e]; simpl; [lia|].
  destruct (a <? max_retries self - 1), (report e); simpl; try lia.
  specialize (IH (S calls)). lia.
Qed.

(** X8: a call of [translate_text] sends at most [max_retries] requests,
    and at least one unless [max_retries] is zero, whatever the service
    does. *)
Theorem X8_translate_text_request_count (self : translator) (calls : nat)
    (text lang : str) :
  calls + min 1 (max_retries self) <= snd (translate_text self calls text lang)
  /\ snd (translate_text self calls text lang) <= calls + max_retries self.
Proof.
  unfold translate_text.
  pose proof (attempts_calls self (seq 0 (max_retries self)) calls
                (prompt lang text) text) as H.
  by rewrite length_seq in H.
Qed.




(** ** [create_backup] and the files of a run *)

Lemma backup_progress_neq output_file now :
  backup_path output_file now <> progress_path output_file.
Proof.
  unfold backup_path, progress_path. intros H.
  apply String.app_inj in H.
  change ("." +:+ now +:+ ".backup")%string
    with (String "." (now +:+ ".backup")) in H.
  injection H as H.
  do 8 (destruct now as [|? now]; [discriminate H|];
        change (String ?a ?s +:+ ?t)%string with (String a (s +:+ t)) in H;
        injection H as _ H).
  destruct now; discriminate H.
Qed.

(** X10: [create_backup] writes one file, the backup, whose path differs
    from the path of the file: the backup holds the text read from the
    file (the file itself when it has no carriage return), every other
    file is as before, and nothing is written when the file does not
    exist. *)
Theorem X10_create_backup (now file_path : string) (fs : files) :
  let fs' := create_backup now file_path fs in
  fs' !! backup_path file_path now
    = match fs !! file_path with
      | Some c => Some (universal_newlines c)
      | None => fs !! backup_path file_path now
      end
  /\ (forall c, fs !! file_path = Some c -> no_cr c = true ->
        fs' !! backup_path file_path now = Some c)
  /\ backup_path file_path now <> file_path
  /\ (forall q, q <> backup_path file_path now -> fs' !! q = fs !! q)
  /\ (fs !! file_path = None -> fs' = fs).
Proof.
  cbv zeta. unfold create_backup, read_file.
  destruct (fs !! file_path) as [c|] eqn:E; simpl.
  - rewrite lookup_insert_eq. split; [done|]. split.
    { intros c' [= <-] Hc. by rewrite universal_newlines_no_cr. }
    split; [apply backup_path_neq|]. split; [|done].
    intros q Hq. by rewrite lookup_insert_ne.
  - split; [done|]. split; [done|]. split; [apply backup_path_neq|]. done.
Qed.

Lemma backup_existing_other now output_file fs q :
  q <> backup_path output_file now ->
  backup_existing now output_file fs !! q = fs !! q.
Proof.
  intros Hq. unfold backup_existing, create_backup, read_file.
  destruct (fs !! output_file); simpl; [|done].
  by rewrite lookup_insert_ne.
Qed.

Lemma backup_existing_backup now output_file fs c :
  fs !! output_file = Some c ->
  backup_existing now output_file fs !! backup_path output_file now
  = Some (universal_newlines c).
Proof.
  intros E. unfold backup_existing, create_backup, read_file.
  rewrite E. simpl. apply lookup_insert_eq.
Qed.

(** A run writes the output file and the progress file, and nothing else
    after the backup. *)
Lemma translate_subtitles_other (self : translator) (sig : signal)
    (now : string) (fs : files) (input_file output_file : string)
    (lang : str) (p : string) :
  p <> output_file -> p <> progress_path output_file ->
  snd (translate_subtitles self sig now fs input_file output_file lang) !! p
  = backup_existing now output_file fs !! p.
Proof.
  intros Ho Hp. unfold translate_subtitles.
  destruct (read_file _ input_file) as [content|]; [|done].
  destruct (run_batches _ _ _ _ _ _ _) as [r st] eqn:E.
  pose proof (run_batches_disk _ _ _ _ _ _ _ _ _ p E Hp) as Hd.
  simpl in Hd. rewrite <- Hd.
  destruct r as [[]|]; simpl; unfold save_progress;
    try (by rewrite lookup_insert_ne).
  destruct (_ !! progress_path output_file);
    [rewrite lookup_delete_ne by done|]; by rewrite lookup_insert_ne.
Qed.

(** X11: a run touches three paths at most: the output file, the progress
    file and the backup of the output file; every other file, the input
    file among them when its path is none of these, is as before,
    however the run ends. *)
Theorem X11_run_touches_three_paths (self : translator) (sig : signal)
    (now : string) (fs : files) (input_file output_file : string)
    (lang : str) (p : string) :
  p <> output_file ->
  p <> progress_path output_file ->
  p <> backup_path output_file now ->
  snd (translate_subtitles self sig now fs input_file output_file lang) !! p
  = fs !! p.
Proof.
  intros Ho Hp Hb. rewrite translate_subtitles_other by done.
  by apply backup_existing_other.
Qed.

Lemma X11_witness :
  in_srt <> out_srt
  /\ in_srt <> progress_path out_srt
  /\ in_srt <> backup_path out_srt clock
  /\ snd (translate_subtitles two_parts None clock store in_srt out_srt french)
       !! in_srt = store !! in_srt.
Proof.
  assert (H1 : in_srt <> out_srt) by (vm_compute; discriminate).
  assert (H2 : in_srt <> progress_path out_srt) by (vm_compute; discriminate).
  assert (H3 : in_srt <> backup_path out_srt clock)
    by (vm_compute; discriminate).
  do 3 (split; [assumption|]).
  exact (X11_run_touches_three_paths two_parts None clock store in_srt out_srt
           french in_srt H1 H2 H3).
Defined.



(** X13: when the output file exists at the start of the run, the backup
    step, once done, has put its text as read in the backup file, and no
    later step of the run writes the path of the backup: the loop over
    the batches leaves it as it is after any number of batches and
    wherever it stops, and so do the save of a handler, the final write
    of the output file and the removal of the progress file; a run that
    ends in a handler of the loop or normally ends with the backup in
    place. *)
Theorem X13_backup_kept (self : translator) (sig : signal)
    (now : string) (fs : files) (input_file output_file : string)
    (lang c : str) :
  fs !! output_file = Some c ->
  backup_existing now output_file fs !! backup_path output_file now
    = Some (universal_newlines c)
  /\ (forall subs starts st,
        disk (snd (run_batches self sig lang (progress_path output_file) subs
                     starts st)) !! backup_path output_file now
        = disk st !! backup_path output_file now)
  /\ (forall acc fs1,
        save_progress acc (progress_path output_file) fs1
          !! backup_path output_file now = fs1 !! backup_path output_file now
        /\ save_progress acc output_file fs1 !! backup_path output_file now
           = fs1 !! backup_path output_file now
        /\ delete (progress_path output_file) fs1
             !! backup_path output_file now
           = fs1 !! backup_path output_file now)
  /\ snd (translate_subtitles self sig now fs input_file output_file lang)
       !! backup_path output_file now = Some (universal_newlines c).
Proof.
  intros E. split; [by apply backup_existing_backup|]. split; [|split].
  - intros subs starts st.
    destruct (run_batches _ _ _ _ _ _ _) as [r st'] eqn:Hrun.
    apply (run_batches_disk _ _ _ _ _ _ _ _ _ _ Hrun), backup_progress_neq.
  - intros acc fs1. unfold save_progress.
    rewrite !lookup_insert_ne, lookup_delete_ne;
      [done|apply not_eq_sym, backup_progress_neq
       |apply not_eq_sym, backup_path_neq
       |apply not_eq_sym, backup_progress_neq].
  - rewrite translate_subtitles_other.
    + by apply backup_existing_backup.
    + apply backup_path_neq.
    + apply backup_progress_neq.
Qed.

Lemma X13_witness :
  store_with_output !! out_srt = Some (lit "old")
  /\ snd (translate_subtitles two_parts None clock store_with_output in_srt
            out_srt french) !! backup_path out_srt clock
     = Some (universal_newlines (lit "old")).
Proof.
  assert (H : store_with_output !! out_srt = Some (lit "old")) by reflexivity.
  split; [assumption|].
  exact (proj2 (proj2 (proj2 (X13_backup_kept two_parts None clock
                                store_with_output in_srt out_srt french
                                (lit "old") H)))).
Defined.

(** ** The records a run accumulates *)

Lemma key_with_text sub t : key (with_text sub t) = key sub.
Proof. done. Qed.

Lemma append_parts_keys sig k batch parts j acc r acc' :
  append_parts sig k batch parts j acc = (r, acc') ->
  exists m out,
    acc' = acc ++ out /\ map key out = take m (map key (drop j batch)).
Proof.
  revert j acc. induction parts as [|part parts IH]; intros j acc;
    cbn [append_parts]; destruct (fires sig k (Appended j));
    try (intros [= _ <-]; exists 0, []; by rewrite app_nil_r).
  destruct (batch !! j) as [sub|] eqn:E;
    [|intros [= _ <-]; exists 0, []; by rewrite app_nil_r].
  intros H. destruct (IH _ _ H) as (m & out & -> & Hout).
  exists (S m), (with_text sub (strip part) :: out).
  split; [by rewrite <- app_assoc|].
  rewrite (drop_S _ _ _ E). cbn [map take].
  by rewrite key_with_text, Hout.
Qed.

Lemma batch_step_keys (self : translator) sig lang pf subs i st r st' :
  batch_step self sig lang pf subs i st = (r, st') ->
  exists m out,
    translated st' = translated st ++ out
    /\ map key out = take m (map key (slice subs i (i + batch_size)))
    /\ (r = None -> disk st' = save_progress (translated st') pf (disk st)).
Proof.
  unfold batch_step.
  destruct (fires sig _ InDelay);
    [intros [= <- <-]; exists 0, []; by rewrite app_nil_r|].
  destruct (fires sig _ InCall);
    [intros [= <- <-]; exists 0, []; by rewrite app_nil_r|].
  destruct (translate_text _ _ _ _) as [[[t|]|e] n];
    try (intros [= <- <-]; exists 0, []; by rewrite app_nil_r).
  destruct (append_parts sig _ _ _ _ _) as [[e|] acc] eqn:E;
    intros [= <- <-]; destruct (append_parts_keys _ _ _ _ _ _ _ _ E)
      as (m & out & -> & Hout); rewrite drop_0 in Hout;
    exists m, out; simpl; done.
Qed.

Lemma run_batches_keys (self : translator) sig lang pf subs starts st r st' :
  run_batches self sig lang pf subs starts st = (r, st') ->
  exists out,
    translated st' = translated st ++ out
    /\ map key out
       `sublist_of`
       map key (concat (map (fun i => slice subs i (i + batch_size)) starts)).
Proof.
  revert st. induction starts as [|i starts IH]; intros st; cbn [run_batches].
  - intros [= _ <-]. exists []. by rewrite app_nil_r.
  - destruct (batch_step self sig _ _ _ _ _) as [[e|] st1] eqn:E;
      destruct (batch_step_keys _ _ _ _ _ _ _ _ _ E) as (m & out & Hacc & Hout & _).
    + intros [= _ <-]. exists out. split; [done|].
      cbn [map concat]. rewrite map_app, Hout.
      apply sublist_inserts_r, sublist_take.
    + intros H. destruct (IH _ H) as (out' & Hacc' & Hout').
      exists (out ++ out'). split; [by rewrite Hacc', Hacc, <- app_assoc|].
      cbn [map concat]. rewrite !map_app, Hout.
      apply sublist_app; [apply sublist_take|done].
Qed.

(** X14: whatever text the service answers, the records accumulated when
    the loop over the batches ends are, by index and time range, records
    of the input in their order, none twice.  When the loop ends in a
    handler (an interruption delivered at a point of a batch, or an
    exception raised in a batch) the run leaves them in the progress
    file; when it ends normally the run writes them to the output file
    and leaves no progress file. *)
Theorem X14_written_records_from_input (self : translator) (sig : signal)
    (now : string) (fs : files) (input_file output_file : string)
    (lang content : str) (r : option pyexn) (st : state) :
  read_file (backup_existing now output_file fs) input_file = Some content ->
  run_batches self sig lang (progress_path output_file) (parse_srt content)
    (batch_starts (length (parse_srt content)))
    (State [] (backup_existing now output_file fs) 0) = (r, st) ->
  map key (translated st) `sublist_of` map key (parse_srt content)
  /\ fst (translate_subtitles self sig now fs input_file output_file lang)
     = loop_outcome r
  /\ match r with
     | Some _ =>
         snd (translate_subtitles self sig now fs input_file output_file lang)
           !! progress_path output_file = Some (serialize (translated st))
     | None =>
         snd (translate_subtitles self sig now fs input_file output_file lang)
           !! output_file = Some (serialize (translated st))
         /\ snd (translate_subtitles self sig now fs input_file output_file
                   lang) !! progress_path output_file = None
     end.
Proof.
  intros Hread E.
  destruct (run_batches_keys _ _ _ _ _ _ _ _ _ E) as (out & Hacc & Hsub).
  rewrite batch_starts_concat in Hsub. simpl in Hacc. subst out.
  split; [done|].
  unfold translate_subtitles. rewrite Hread, E.
  destruct r as [[]|]; simpl; (split; [done|]); unfold save_progress;
    try apply lookup_insert_eq.
  destruct (_ !! progress_path output_file) eqn:Hp.
  - rewrite lookup_delete_eq, lookup_delete_ne by apply progress_path_neq.
    by rewrite lookup_insert_eq.
  - by rewrite lookup_insert_eq.
Qed.

Lemma X14_witness :
  read_file (backup_existing clock out_srt store11) in_srt
    = Some (serialize eleven)
  /\ run_batches echo (Some (2, Appended 1)) french (progress_path out_srt)
       (parse_srt (serialize eleven))
       (batch_starts (length (parse_srt (serialize eleven))))
       (State [] (backup_existing clock out_srt store11) 0)
     = (Some KeyboardInterrupt,
        snd (run_batches echo (Some (2, Appended 1)) french
               (progress_path out_srt) (parse_srt (serialize eleven))
               (batch_starts (length (parse_srt (serialize eleven))))
               (State [] (backup_existing clock out_srt store11) 0)))
  /\ fst (translate_subtitles echo (Some (2, Appended 1)) clock store11 in_srt
            out_srt french) = Interrupted.
Proof.
  assert (H1 : read_file (backup_existing clock out_srt store11) in_srt
               = Some (serialize eleven)) by reflexivity.
  assert (H2 : run_batches echo (Some (2, Appended 1)) french
                 (progress_path out_srt) (parse_srt (serialize eleven))
                 (batch_starts (length (parse_srt (serialize eleven))))
                 (State [] (backup_existing clock out_srt store11) 0)
               = (Some KeyboardInterrupt,
                  snd (run_batches echo (Some (2, Appended 1)) french
                         (progress_path out_srt) (parse_srt (serialize eleven))
                         (batch_starts (length (parse_srt (serialize eleven))))
                         (State [] (backup_existing clock out_srt store11) 0))))
    by reflexivity.
  do 2 (split; [assumption|]).
  exact (proj1 (proj2 (X14_written_records_from_input echo
                         (Some (2, Appended 1)) clock store11 in_srt out_srt
                         french (serialize eleven) _ _ H1 H2))).
Defined.

Lemma serialize_app a b : serialize (a ++ b) = serialize a ++ serialize b.
Proof. unfold serialize. by rewrite map_app, concat_app. Qed.

(** X15: a batch that ends without an exception leaves in the progress
    file the serialization of all the records accumulated so far: the
    text that stands for the records of the earlier batches, followed by
    the text of the records this batch appended. *)
Theorem X15_progress_after_batch (self : translator) (sig : signal)
    (lang : str) (pf : string) (subs : list subtitle) (i : nat)
    (st st' : state) :
  batch_step self sig lang pf subs i st = (None, st') ->
  exists out,
    translated st' = translated st ++ out
    /\ disk st' !! pf = Some (serialize (translated st'))
    /\ disk st' !! pf = Some (serialize (translated st) ++ serialize out).
Proof.
  intros H.
  destruct (batch_step_keys _ _ _ _ _ _ _ _ _ H) as (m & out & Hacc & _ & Hd).
  exists out. split; [done|]. rewrite (Hd eq_refl). unfold save_progress.
  split; [apply lookup_insert_eq|].
  rewrite Hacc, serialize_app. apply lookup_insert_eq.
Qed.

Lemma X15_witness :
  batch_step two_parts None french (progress_path out_srt) hello_world 0
    (State [] store 0)
  = (None,
     snd (batch_step two_parts None french (progress_path out_srt) hello_world
            0 (State [] store 0)))
  /\ exists out,
       translated
         (snd (batch_step two_parts None french (progress_path out_srt)
                 hello_world 0 (State [] store 0))) = [] ++ out.
Proof.
  assert (H : batch_step two_parts None french (progress_path out_srt)
                hello_world 0 (State [] store 0)
              = (None,
                 snd (batch_step two_parts None french (progress_path out_srt)
                        hello_world 0 (State [] store 0)))) by reflexivity.
  split; [assumption|].
  destruct (X15_progress_after_batch two_parts None french
              (progress_path out_srt) hello_world 0 (State [] store 0) _ H)
    as (out & Hacc & _).
  exists out. exact Hacc.
Defined.

(** ** The batches and the requests of a run *)

Lemma batch_starts_length total :
  length (batch_starts total) = (total + 4) / batch_size.
Proof.
  unfold batch_starts. rewrite length_map, length_seq.
  unfold batch_size. f_equal. lia.
Qed.

Lemma batch_start_lt total q :
  q < (total + 4) / batch_size -> q * batch_size < total.
Proof.
  unfold batch_size. intros H.
  pose proof (Nat.div_mod_eq (total + 4) 5).
  pose proof (Nat.mod_upper_bound (total + 4) 5). lia.
Qed.

(** X16: the loop cuts the records into batches that are never empty and
    hold five records at most; there are as many batches as the fifth of
    the number of records, rounded up, and the batches put end to end are
    the records in their order, each one once. *)
Theorem X16_batches_partition (subtitles : list subtitle) :
  let batches :=
    map (fun i => slice subtitles i (i + batch_size))
      (batch_starts (length subtitles)) in
  length batches = (length subtitles + 4) / 5
  /\ Forall (fun b => 1 <= length b <= 5) batches
  /\ concat batches = subtitles.
Proof.
  cbv zeta. rewrite length_map, batch_starts_length.
  split; [done|]. split; [|apply batch_starts_concat].
  apply Forall_forall. intros b Hb.
  apply list_elem_of_In, in_map_iff in Hb as (i & <- & Hi).
  apply list_elem_of_In, list_elem_of_lookup in Hi as [q Hq].
  pose proof (lookup_lt_Some _ _ _ Hq) as Hlt.
  rewrite batch_starts_length in Hlt.
  apply batch_starts_lookup in Hq as ->.
  apply batch_start_lt in Hlt.
  unfold slice. rewrite length_take, length_drop. unfold batch_size in *. lia.
Qed.

Lemma batch_step_calls (self : translator) sig lang pf subs i st :
  calls (snd (batch_step self sig lang pf subs i st))
  <= calls st + max_retries self.
Proof.
  unfold batch_step.
  destruct (fires sig _ InDelay); [simpl; lia|].
  destruct (fires sig _ InCall); [simpl; lia|].
  pose proof (Hbound := attempts_calls self (seq 0 (max_retries self))
                (calls st)
                (prompt lang
                   (join delimiter
                      (map text (slice subs i (i + batch_size)))))
                (join delimiter (map text (slice subs i (i + batch_size))))).
  rewrite length_seq in Hbound. fold (translate_text self (calls st)
    (join delimiter (map text (slice subs i (i + batch_size)))) lang)
    in Hbound.
  destruct (translate_text _ _ _ _) as [[[t|]|e] n]; simpl in *; try lia.
  destruct (append_parts sig _ _ _ _ _) as [[e|] acc]; simpl; lia.
Qed.

Lemma run_batches_calls (self : translator) sig lang pf subs starts st :
  calls (snd (run_batches self sig lang pf subs starts st))
  <= calls st + max_retries self * length starts.
Proof.
  revert st. induction starts as [|i starts IH]; intros st;
    cbn [run_batches length]; [simpl; lia|].
  pose proof (batch_step_calls self sig lang pf subs i st) as Hb.
  destruct (batch_step self sig _ _ _ _ _) as [[e|] st1]; simpl in *; [lia|].
  specialize (IH st1). lia.
Qed.

(** X17: over a whole run the loop sends at most [max_retries] requests
    for each batch, so at most [max_retries] times the number of batches
    in all, whatever the service answers and however the run ends. *)
Theorem X17_run_request_bound (self : translator) (sig : signal) (lang : str)
    (pf : string) (subtitles : list subtitle) (fs : files) :
  calls (snd (run_batches self sig lang pf subtitles
                (batch_starts (length subtitles)) (State [] fs 0)))
  <= max_retries self * ((length subtitles + 4) / 5).
Proof.
  pose proof (run_batches_calls self sig lang pf subtitles
                (batch_starts (length subtitles)) (State [] fs 0)) as H.
  by rewrite batch_starts_length in H.
Qed.

(** X18: an input that parses to no record (an empty file, a text
    without digits) makes the run complete at once: an empty output file
    is written, there is no progress file afterwards, and no request is
    sent, whatever the service and the signal. *)
Theorem X18_run_without_records (self : translator) (sig : signal)
    (now : string) (fs : files) (input_file output_file : string)
    (lang content : str) :
  read_file (backup_existing now output_file fs) input_file = Some content ->
  parse_srt content = [] ->
  fst (translate_subtitles self sig now fs input_file output_file lang)
    = Completed
  /\ snd (translate_subtitles self sig now fs input_file output_file lang)
       !! output_file = Some []
  /\ snd (translate_subtitles self sig now fs input_file output_file lang)
       !! progress_path output_file = None
  /\ calls (snd (run_batches self sig lang (progress_path output_file)
                   (parse_srt content)
                   (batch_starts (length (parse_srt content)))
                   (State [] (backup_existing now output_file fs) 0))) = 0.
Proof.
  intros Hread Hnil. unfold translate_subtitles. rewrite Hread, Hnil.
  cbn [length]. change (batch_starts 0) with (@nil nat). cbn [run_batches].
  split; [done|]. cbn [fst snd translated disk calls]. unfold save_progress.
  set (fs2 := <[output_file := serialize []]> _).
  assert (fs2 !! output_file = Some []) as Hout by apply lookup_insert_eq.
  split; [|split; [|done]];
    destruct (fs2 !! progress_path output_file) eqn:E; try done.
  - by rewrite lookup_delete_ne by apply progress_path_neq.
  - apply lookup_delete_eq.
Qed.

Lemma X18_witness :
  read_file (backup_existing clock out_srt {[ in_srt := lit "no subtitle" ]})
    in_srt = Some (lit "no subtitle")
  /\ parse_srt (lit "no subtitle") = []
  /\ fst (translate_subtitles network_down None clock
            {[ in_srt := lit "no subtitle" ]} in_srt out_srt french)
     = Completed.
Proof.
  assert (H1 : read_file
                 (backup_existing clock out_srt
                    {[ in_srt := lit "no subtitle" ]}) in_srt
               = Some (lit "no subtitle")) by reflexivity.
  assert (H2 : parse_srt (lit "no subtitle") = []) by reflexivity.
  do 2 (split; [assumption|]).
  exact (proj1 (X18_run_without_records network_down None clock
                  {[ in_srt := lit "no subtitle" ]} in_srt out_srt french
                  (lit "no subtitle") H1 H2)).
Defined.

(** ** Joining and splitting, and a service that never answers *)

Lemma split_from_nonempty sep k s : split_from sep k s <> [].
Proof.
  revert k. induction s as [|c s IH]; intros k; simpl; [done|].
  destruct k; [|apply IH].
  destruct (starts_with sep (c :: s)); [done|].
  by destruct (split_from sep 0 s).
Qed.

Lemma split_after_delimiter s :
  split_from delimiter 0 (delimiter ++ s) = [] :: split_from delimiter 0 s.
Proof. reflexivity. Qed.

Lemma split_from_text x rest :
  nl_dash_free x = true ->
  rest = [] \/ (exists r, rest = nl :: r) ->
  split_from delimiter 0 (x ++ rest) =
  match split_from delimiter 0 rest with
  | p :: ps => (x ++ p) :: ps
  | [] => [x]
  end.
Proof.
  intros Hx Hrest. induction x as [|c x IH].
  - simpl. pose proof (split_from_nonempty delimiter 0 rest).
    by destruct (split_from delimiter 0 rest).
  - cbn [nl_dash_free] in Hx. apply andb_true_iff in Hx as [Hc Hx].
    specialize (IH Hx). cbn [app split_from].
    assert (starts_with delimiter (c :: x ++ rest) = false) as ->.
    { change delimiter with (nl :: lit "---" ++ [nl]). cbn [starts_with].
      destruct (Ascii.eqb c nl) eqn:Ec; [|done]. simpl in Hc |- *.
      destruct x as [|d x]; simpl in *.
      - destruct Hrest as [->|[r ->]]; done.
      - apply negb_true_iff in Hc. by rewrite Hc. }
    rewrite IH. by destruct (split_from delimiter 0 rest).
Qed.

Lemma split_join_texts (texts : list str) :
  texts <> [] ->
  forallb nl_dash_free texts = true ->
  split delimiter (join delimiter texts) = texts.
Proof.
  unfold split. induction texts as [|x texts IH]; [done|].
  intros _ [Hx Hts]%andb_true_iff.
  destruct texts as [|y texts].
  - simpl. rewrite <- (app_nil_r x) at 1.
    rewrite split_from_text by (done || by left). simpl.
    by rewrite app_nil_r.
  - change (join delimiter (x :: y :: texts))
      with (x ++ delimiter ++ join delimiter (y :: texts)).
    rewrite split_from_text; [|done|right; by eexists].
    rewrite split_after_delimiter, app_nil_r, IH by done. done.
Qed.

(** X19: on the texts of a non-empty batch in which no newline is
    directly followed by a hyphen, joining with the delimiter and
    splitting on it gives the texts back, as many parts as texts. *)
Theorem X19_split_join (texts : list str) :
  texts <> [] ->
  forallb nl_dash_free texts = true ->
  split delimiter (join delimiter texts) = texts.
Proof. apply split_join_texts. Qed.

Lemma X19_witness :
  [lit "Hello"; lit "- a dash" ++ nl :: lit "second line"] <> []
  /\ forallb nl_dash_free
       [lit "Hello"; lit "- a dash" ++ nl :: lit "second line"] = true
  /\ split delimiter
       (join delimiter
          [lit "Hello"; lit "- a dash" ++ nl :: lit "second line"])
     = [lit "Hello"; lit "- a dash" ++ nl :: lit "second line"].
Proof.
  split; [discriminate|]. split; [reflexivity|].
  apply (X19_split_join
           [lit "Hello"; lit "- a dash" ++ nl :: lit "second line"]);
    [discriminate|reflexivity].
Defined.

Lemma paired_self batch :
  Forall canonical batch -> paired batch (map text batch) = batch.
Proof.
  induction 1 as [|r batch Hr _ IH]; [done|].
  cbn [map]. rewrite paired_cons, IH. f_equal.
  destruct Hr as (_ & _ & _ & _ & Hl & Hr & _).
  unfold strip. rewrite Hl, Hr. by destruct r.
Qed.

Lemma forallb_slice {A} (f : A -> bool) (l : list A) i j :
  forallb f l = true -> forallb f (slice l i j) = true.
Proof.
  intros H. unfold slice.
  rewrite <- (take_drop i l), forallb_app in H.
  apply andb_true_iff in H as [_ H].
  rewrite <- (take_drop (j - i) (drop i l)), forallb_app in H.
  by apply andb_true_iff in H as [H _].
Qed.

Lemma forallb_map_text (f : str -> bool) (l : list subtitle) :
  forallb f (map text l) = forallb (fun r => f (text r)) l.
Proof. induction l as [|r l IH]; simpl; [done|]. by rewrite IH. Qed.

Lemma Forall_slice {A} (P : A -> Prop) (l : list A) i j :
  Forall P l -> Forall P (slice l i j).
Proof. intros H. unfold slice. by apply Forall_take, Forall_drop. Qed.

Section never_answers.
Context (self : translator) (lang : str) (pf : string).
Context (subs : list subtitle).
Hypothesis Hretries : 0 < max_retries self.
Hypothesis Hfail :
  forall c request, exists e, post self c request = Failed e /\ e <> IsNone.
Hypothesis Hcanonical : Forall canonical subs.
Hypothesis Hdash : forallb (fun r => nl_dash_free (text r)) subs = true.

Lemma batch_step_never_answers i st :
  slice subs i (i + batch_size) <> [] ->
  batch_step self None lang pf subs i st =
  (None,
   State (translated st ++ slice subs i (i + batch_size))
     (save_progress (translated st ++ slice subs i (i + batch_size)) pf
        (disk st))
     (calls st + max_retries self)).
Proof.
  intros Hne.
  assert (Ht : translate_text self (calls st)
                 (join delimiter (map text (slice subs i (i + batch_size))))
                 lang
               = (Return (Some (join delimiter
                                  (map text (slice subs i (i + batch_size))))),
                  calls st + max_retries self)).
  { apply translate_text_fallback; [done|]. intros c. apply Hfail. }
  rewrite (batch_step_quiet _ _ _ _ _ _ _ _ Ht). cbv zeta.
  rewrite split_join_texts.
  - rewrite length_map, Nat.ltb_irrefl, paired_self; [done|].
    by apply Forall_slice.
  - by destruct (slice subs i (i + batch_size)).
  - rewrite forallb_map_text. by apply forallb_slice.
Qed.

Lemma run_batches_never_answers starts st :
  Forall (fun i => slice subs i (i + batch_size) <> []) starts ->
  exists st',
    run_batches self None lang pf subs starts st = (None, st')
    /\ translated st'
       = translated st
         ++ concat (map (fun i => slice subs i (i + batch_size)) starts).
Proof.
  revert st. induction starts as [|i starts IH]; intros st Hne.
  - exists st. simpl. by rewrite app_nil_r.
  - inversion Hne as [|? ? Hi Hrest]; subst. cbn [run_batches].
    rewrite batch_step_never_answers by done.
    destruct (IH (State (translated st ++ slice subs i (i + batch_size))
                    (save_progress
                       (translated st ++ slice subs i (i + batch_size)) pf
                       (disk st))
                    (calls st + max_retries self)) Hrest) as (st' & -> & Hacc).
    exists st'. split; [done|]. rewrite Hacc. simpl. by rewrite <- app_assoc.
Qed.
End never_answers.

Lemma batch_slices_nonempty (subs : list subtitle) :
  Forall (fun i => slice subs i (i + batch_size) <> [])
    (batch_starts (length subs)).
Proof.
  apply Forall_forall. intros i Hi.
  apply list_elem_of_lookup in Hi as [q Hq].
  pose proof (lookup_lt_Some _ _ _ Hq) as Hlt.
  rewrite batch_starts_length in Hlt.
  apply batch_starts_lookup in Hq as ->.
  apply batch_start_lt in Hlt. intros E.
  apply (f_equal length) in E. unfold slice in E.
  rewrite length_take, length_drop in E. unfold batch_size in *.
  simpl in E. lia.
Qed.

(** X20: when the service never answers, every attempt failing with an
    exception whose response is not [None], and no text of the input has
    a newline directly followed by a hyphen, an uninterrupted run
    completes and the output file holds the records of the input with
    their texts untranslated: the serialization of what the parser
    returned, which parses to the same records again. *)
Theorem X20_service_never_answers (self : translator) (now : string)
    (fs : files) (input_file output_file : string) (lang content : str) :
  0 < max_retries self ->
  (forall c request,
     exists e, post self c request = Failed e /\ e <> IsNone) ->
  read_file (backup_existing now output_file fs) input_file = Some content ->
  forallb (fun r => nl_dash_free (text r)) (parse_srt content) = true ->
  fst (translate_subtitles self None now fs input_file output_file lang)
    = Completed
  /\ snd (translate_subtitles self None now fs input_file output_file lang)
       !! output_file = Some (serialize (parse_srt content))
  /\ snd (translate_subtitles self None now fs input_file output_file lang)
       !! progress_path output_file = None
  /\ parse_srt (serialize (parse_srt content)) = parse_srt content.
Proof.
  intros Hm Hfail Hread Hdash.
  unfold translate_subtitles. rewrite Hread.
  destruct (run_batches_never_answers self lang (progress_path output_file)
              (parse_srt content) Hm Hfail (parse_srt_canonical content) Hdash
              (batch_starts (length (parse_srt content)))
              (State [] (backup_existing now output_file fs) 0)
              (batch_slices_nonempty (parse_srt content)))
    as (st' & -> & Hacc).
  rewrite batch_starts_concat in Hacc. simpl in Hacc.
  cbn [fst snd]. rewrite Hacc. unfold save_progress.
  set (fs2 := <[output_file := serialize (parse_srt content)]> _).
  assert (fs2 !! output_file = Some (serialize (parse_srt content))) as Hout
    by apply lookup_insert_eq.
  split; [done|].
  split; [|split; [|apply parse_srt_serialize, parse_srt_canonical]];
    destruct (fs2 !! progress_path output_file) eqn:E; try done.
  - by rewrite lookup_delete_ne by apply progress_path_neq.
  - apply lookup_delete_eq.
Qed.

Lemma X20_witness :
  0 < max_retries no_answer
  /\ (forall c request,
        exists e, post no_answer c request = Failed e /\ e <> IsNone)
  /\ read_file (backup_existing clock out_srt store) in_srt
     = Some (serialize hello_world)
  /\ forallb (fun r => nl_dash_free (text r))
       (parse_srt (serialize hello_world)) = true
  /\ fst (translate_subtitles no_answer None clock store in_srt out_srt french)
     = Completed.
Proof.
  assert (H1 : 0 < max_retries no_answer) by (vm_compute; lia).
  assert (H2 : forall c request,
                 exists e, post no_answer c request = Failed e /\ e <> IsNone).
  { intros c request. exists NoAttr. split; [reflexivity|discriminate]. }
  assert (H3 : read_file (backup_existing clock out_srt store) in_srt
               = Some (serialize hello_world)) by reflexivity.
  assert (H4 : forallb (fun r => nl_dash_free (text r))
                 (parse_srt (serialize hello_world)) = true) by reflexivity.
  do 4 (split; [assumption|]).
  exact (proj1 (X20_service_never_answers no_answer clock store in_srt out_srt
                  french (serialize hello_world) H1 H2 H3 H4)).
Defined.
